(** * hyprsunset-tray: the process controller

    A shallow embedding of [HyprsunsetController] (src/hyprsunset-tray.py)
    and of the parts of Qt it drives: [QProcess] children, the [QSettings]
    store, single-shot timers, the log and the [state_changed] signal.

    Python integers are unbounded, so temperatures are [Z].  The controller
    and everything it touches form one [World]; the methods are written in
    a small state monad over it.  What the operating system decides inside
    a call (does the child come up within the wait, does it exit within the
    wait) is an argument of the call; what happens between calls (a timer
    fires, a child exits, a launch that was still pending is confirmed or
    refused) is an [Action] of the transition system.

    Part I holds the definitions: the model, what is read off a trace, the
    invariants, and the properties stated about the controller.  Part II
    holds the proofs. *)

From stdpp Require Import gmap strings list pretty.

(** * Part I: definitions *)

(** ** Module-level constants *)

Definition MIN_TEMP : Z := 2000.
Definition MAX_TEMP : Z := 6000.
Definition STEP : Z := 100.
Definition HYPRSUNSET_BIN : string := "hyprsunset".

(** ** QSettings

    [SETTINGS.value(key, default, int)] and [SETTINGS.setValue(key, v)] on
    the integer keys of the store.  The store is taken to hold values that
    the conversion to [int] of [value] gives back as they are, as it does
    for every value [setValue] is called with here (they lie between 2000
    and 6000); what that conversion makes of a value beyond the range of
    a C int, put into the file by other means, is not modelled. *)

Definition QSettings_value (s : gmap string Z) (key : string) (dflt : Z) : Z :=
  default dflt (s !! key).

Definition QSettings_setValue (s : gmap string Z) (key : string) (v : Z)
  : gmap string Z :=
  <[key := v]> s.

(** [DEFAULT_TEMP = SETTINGS.value("temperature", 4000, int)], evaluated
    once when the module is loaded, on the store found at that moment. *)
Definition DEFAULT_TEMP (s : gmap string Z) : Z :=
  QSettings_value s "temperature" 4000.

(** ** QProcess

    [ProcessState] is Qt's enumeration, the value of [QProcess.state()].
    [Phase] refines it with what has happened to the object so far: two of
    Qt's [NotRunning] objects differ in whether the child failed to launch
    or ran and exited. *)

Inductive ProcessState := NotRunning | Starting | Running.

Inductive ProcessError := FailedToStart | Crashed.

Inductive Phase :=
| Idle        (* constructed, start() not called yet *)
| Launching   (* start() called, launch not confirmed *)
| Failed      (* the launch failed *)
| Alive       (* launch confirmed, child running *)
| Gone.       (* the child ran and has exited *)

Record QProcess := {
  phase : Phase;
  program : string;
  arguments : list string;
  finished_connected : bool;       (* finished.connect(self._on_finished) *)
  errorOccurred_connected : bool   (* errorOccurred.connect(self._on_error) *)
}.

Definition state (p : QProcess) : ProcessState :=
  match phase p with
  | Launching => Starting
  | Alive => Running
  | Idle | Failed | Gone => NotRunning
  end.

Global Instance ProcessState_eq_dec : EqDecision ProcessState.
Proof. solve_decision. Defined.

(** ** Observable events, in the order they happen

    [cause] in [StateChanged] is the process object whose launch or exit
    led to the emission; the signal itself carries only the boolean.
    [Terminate] stands for [QProcess.terminate()], the request to exit that
    a child may honour. *)

Inductive Level := INFO | ERROR.

Inductive Event :=
| Log (lvl : Level) (msg : string)
| SetValue (key : string) (v : Z)                       (* SETTINGS.setValue *)
| ProcStart (pid : nat) (prog : string) (args : list string) (* QProcess.start *)
| WaitForStarted (pid : nat) (msecs : Z)
| WaitForFinished (pid : nat) (msecs : Z)
| Terminate (pid : nat)                                (* QProcess.terminate *)
| Kill (pid : nat)                                     (* QProcess.kill *)
| SingleShot (msecs : Z)             (* QTimer.singleShot(msecs, self.start) *)
| StateChanged (running : bool) (cause : nat).   (* state_changed.emit(running) *)

(** ** The world

    [process] and [_temperature] are the controller's two attributes.  A
    process object is named by its index in [procs], the [QProcess] children
    of the controller: each is constructed with the controller as parent and
    none is ever deleted. *)

Record World := {
  process : option nat;
  _temperature : Z;
  procs : list QProcess;
  SETTINGS : gmap string Z;
  timers : list Z;          (* pending single-shot delays, oldest first *)
  trace : list Event
}.

(** What the operating system answers to a bounded wait. *)

Inductive StartOutcome :=
| Started          (* waitForStarted: launch confirmed in time *)
| SpawnFailed      (* waitForStarted: the binary could not be launched *)
| StartTimedOut.   (* waitForStarted: no confirmation within the wait *)

Inductive FinishOutcome :=
| Finished (crashed : bool)   (* waitForFinished: the child exited in time *)
| FinishTimedOut.             (* waitForFinished: still running at the end *)

(** ** The state monad *)

Definition M (A : Type) : Type := World → A * World.

Definition ret {A} (a : A) : M A := λ w, (a, w).

Definition bind {A B} (m : M A) (k : A → M B) : M B :=
  λ w, let (a, w') := m w in k a w'.

Declare Scope ctl_scope.
Delimit Scope ctl_scope with ctl.
Notation "x ← y ; z" := (bind y (λ x, z))
  (at level 20, y at level 100, z at level 200, only parsing) : ctl_scope.
Notation "x ;; z" := (bind x (λ _, z))
  (at level 100, z at level 200, only parsing, right associativity)
  : ctl_scope.
Local Open Scope ctl_scope.

Definition gets {A} (f : World → A) : M A := λ w, (f w, w).

Definition exec {A} (m : M A) (w : World) : World := (m w).2.
Definition result {A} (m : M A) (w : World) : A := (m w).1.

(** *** Primitive updates *)

Definition set_process (h : option nat) : M unit := λ w,
  (tt, {| process := h; _temperature := _temperature w; procs := procs w;
          SETTINGS := SETTINGS w; timers := timers w; trace := trace w |}).

Definition set_temperature_attr (t : Z) : M unit := λ w,
  (tt, {| process := process w; _temperature := t; procs := procs w;
          SETTINGS := SETTINGS w; timers := timers w; trace := trace w |}).

Definition set_procs (l : list QProcess) : M unit := λ w,
  (tt, {| process := process w; _temperature := _temperature w; procs := l;
          SETTINGS := SETTINGS w; timers := timers w; trace := trace w |}).

Definition set_SETTINGS (s : gmap string Z) : M unit := λ w,
  (tt, {| process := process w; _temperature := _temperature w;
          procs := procs w; SETTINGS := s; timers := timers w;
          trace := trace w |}).

Definition set_timers (l : list Z) : M unit := λ w,
  (tt, {| process := process w; _temperature := _temperature w;
          procs := procs w; SETTINGS := SETTINGS w; timers := l;
          trace := trace w |}).

Definition record (e : Event) : M unit := λ w,
  (tt, {| process := process w; _temperature := _temperature w;
          procs := procs w; SETTINGS := SETTINGS w; timers := timers w;
          trace := trace w ++ [e] |}).

Definition log (lvl : Level) (msg : string) : M unit := record (Log lvl msg).

Definition emit (running : bool) (cause : nat) : M unit :=
  record (StateChanged running cause).

Definition set_phase (ph : Phase) (p : QProcess) : QProcess :=
  {| phase := ph; program := program p; arguments := arguments p;
     finished_connected := finished_connected p;
     errorOccurred_connected := errorOccurred_connected p |}.

Definition update_proc (pid : nat) (f : QProcess → QProcess) : M unit :=
  l ← gets procs;
  match l !! pid with
  | Some p => set_procs (<[pid := f p]> l)
  | None => ret tt
  end.

(** ** The controller's slots *)

(** [_on_finished]: connected to [finished] of every process the controller
    starts.  [sender] is the process whose signal is being delivered. *)
Definition _on_finished (sender : nat) : M unit :=
  log INFO "hyprsunset terminated";;
  emit false sender.

Definition ProcessError_str (e : ProcessError) : string :=
  match e with
  | FailedToStart => "ProcessError.FailedToStart"
  | Crashed => "ProcessError.Crashed"
  end.

Definition _on_error (error : ProcessError) : M unit :=
  log ERROR ("QProcess error: " +:+ ProcessError_str error).

(** ** Qt's side of QProcess *)

(** Signal delivery: a slot runs if it has been connected. *)

Definition deliver_finished (pid : nat) : M unit :=
  l ← gets procs;
  match l !! pid with
  | Some p => if finished_connected p then _on_finished pid else ret tt
  | None => ret tt
  end.

Definition deliver_errorOccurred (pid : nat) (e : ProcessError) : M unit :=
  l ← gets procs;
  match l !! pid with
  | Some p => if errorOccurred_connected p then _on_error e else ret tt
  | None => ret tt
  end.

(** [QProcess(self)]: a new child object, not started, nothing connected.
    Returns its name. *)
Definition QProcess_new : M nat :=
  l ← gets procs;
  set_procs (l ++ [ {| phase := Idle; program := ""; arguments := [];
                       finished_connected := false;
                       errorOccurred_connected := false |} ]);;
  ret (length l).

Definition connect_finished (pid : nat) : M unit :=
  update_proc pid (λ p,
    {| phase := phase p; program := program p; arguments := arguments p;
       finished_connected := true;
       errorOccurred_connected := errorOccurred_connected p |}).

Definition connect_errorOccurred (pid : nat) : M unit :=
  update_proc pid (λ p,
    {| phase := phase p; program := program p; arguments := arguments p;
       finished_connected := finished_connected p;
       errorOccurred_connected := true |}).

(** [QProcess.start(program, arguments)]: asks the system for the child and
    returns at once; the object is in state [Starting]. *)
Definition QProcess_start (pid : nat) (prog : string) (args : list string)
  : M unit :=
  record (ProcStart pid prog args);;
  update_proc pid (λ p,
    {| phase := Launching; program := prog; arguments := args;
       finished_connected := finished_connected p;
       errorOccurred_connected := errorOccurred_connected p |}).

(** [QProcess.waitForStarted(msecs)].  A confirmed launch makes the object
    [Running]; a failed one makes it [NotRunning] and raises
    [errorOccurred(FailedToStart)]; without an answer in time the object
    stays [Starting].  The result is true in the first case only. *)
Definition QProcess_waitForStarted (pid : nat) (msecs : Z) (o : StartOutcome)
  : M bool :=
  record (WaitForStarted pid msecs);;
  match o with
  | Started => update_proc pid (set_phase Alive);; ret true
  | SpawnFailed =>
      update_proc pid (set_phase Failed);;
      deliver_errorOccurred pid FailedToStart;;
      ret false
  | StartTimedOut => ret false
  end.

(** What the event loop does later with a launch that was still pending
    when [waitForStarted] gave up.  The child comes up after all: the
    object becomes [Running] and emits [started], a signal the controller
    connects nothing to.  Or the launch fails: the object becomes
    [NotRunning] and raises [errorOccurred(FailedToStart)]. *)
Definition child_started (pid : nat) : M unit :=
  update_proc pid (set_phase Alive).

Definition child_failed_to_start (pid : nat) : M unit :=
  update_proc pid (set_phase Failed);;
  deliver_errorOccurred pid FailedToStart.

(** The child's exit as Qt reports it: the object becomes [NotRunning],
    [errorOccurred(Crashed)] is raised for an abnormal exit (a kill is
    one), then [finished]. *)
Definition child_exited (pid : nat) (crashed : bool) : M unit :=
  update_proc pid (set_phase Gone);;
  (if crashed then deliver_errorOccurred pid Crashed else ret tt);;
  deliver_finished pid.

(** [QProcess.waitForFinished(msecs)]: on a running child, true when it
    exits within the wait (its signals are delivered before the call
    returns), false at the end of the wait; on an object that is not
    running, false. *)
Definition QProcess_waitForFinished (pid : nat) (msecs : Z)
    (o : FinishOutcome) : M bool :=
  record (WaitForFinished pid msecs);;
  l ← gets procs;
  match phase <$> l !! pid, o with
  | Some Alive, Finished crashed => child_exited pid crashed;; ret true
  | _, _ => ret false
  end.

(** [QProcess.kill()]: sends the kill and returns; the exit is reported
    later, through the event loop. *)
Definition QProcess_kill (pid : nat) : M unit := record (Kill pid).

(** [QTimer.singleShot(msecs, self.start)]. *)
Definition QTimer_singleShot (msecs : Z) : M unit :=
  record (SingleShot msecs);;
  l ← gets timers;
  set_timers (l ++ [msecs]).

(** [shlex.join] on arguments made of characters that need no quoting
    (here a dash, letters and decimal digits): joined by single spaces. *)
Definition shlex_join (args : list string) : string :=
  String.concat " " args.

(** ** HyprsunsetController *)

(** [__init__], with the store as found when the module was loaded. *)
Definition init (store : gmap string Z) : World :=
  {| process := None;
     _temperature := DEFAULT_TEMP store;
     procs := [];
     SETTINGS := store;
     timers := [];
     trace := [] |}.

Definition is_running (w : World) : bool :=
  match process w with
  | None => false
  | Some pid =>
      match procs w !! pid with
      | Some p => bool_decide (state p = Running)
      | None => false
      end
  end.

Definition temperature (w : World) : Z := _temperature w.

Definition start (o : StartOutcome) : M bool :=
  running ← gets is_running;
  if running then ret true else
  pid ← QProcess_new;
  set_process (Some pid);;
  connect_finished pid;;
  connect_errorOccurred pid;;
  t ← gets _temperature;
  let args := ["-t"; pretty t] in
  log INFO ("Starting hyprsunset with args: " +:+ shlex_join args);;
  QProcess_start pid HYPRSUNSET_BIN args;;
  ok ← QProcess_waitForStarted pid 1000 o;
  if negb ok then
    log ERROR "Failed to start hyprsunset";;
    ret false
  else
    emit true pid;;
    ret true.

Definition stop (o : FinishOutcome) : M unit :=
  running ← gets is_running;
  h ← gets process;
  match negb running, h with
  | true, _ | _, None => ret tt
  | false, Some pid =>
      log INFO "Stopping hyprsunset";;
      finished ← QProcess_waitForFinished pid 1000 o;
      if negb finished then QProcess_kill pid else ret tt
  end.

Definition _restart (o : FinishOutcome) : M unit :=
  stop o;;
  QTimer_singleShot 50.

Definition set_temperature (kelvin : Z) (o : FinishOutcome) : M unit :=
  set_temperature_attr (Z.max MIN_TEMP (Z.min MAX_TEMP kelvin));;
  t ← gets _temperature;
  s ← gets SETTINGS;
  record (SetValue "temperature" t);;
  set_SETTINGS (QSettings_setValue s "temperature" t);;
  running ← gets is_running;
  if running then _restart o else ret tt.

(** ** The transition system

    The calls a user of the controller makes, each with what the system
    answers to the wait inside it, and what the event loop does on its
    own: it runs the oldest pending single-shot callback; it reports the
    exit of a running child (after a kill, a crash, or a signal from
    outside); and it reports what became of a launch that was not
    confirmed within the wait.  [start] reports such a launch as failed
    and returns, but it neither kills the child nor disconnects the
    object, which stays in the state [Starting] until the system answers:
    the child is up, or the launch has failed. *)

Inductive Action :=
| Call_start (o : StartOutcome)
| Call_stop (o : FinishOutcome)
| Call_set_temperature (kelvin : Z) (o : FinishOutcome)
| Timer_fires (o : StartOutcome)
| Process_exits (pid : nat) (crashed : bool)
| Launch_confirmed (pid : nat)
| Launch_refused (pid : nat).

Definition step (a : Action) (w : World) : option World :=
  match a with
  | Call_start o => Some (exec (start o) w)
  | Call_stop o => Some (exec (stop o) w)
  | Call_set_temperature k o => Some (exec (set_temperature k o) w)
  | Timer_fires o =>
      match timers w with
      | [] => None
      | _ :: rest => Some (exec (set_timers rest;; start o) w)
      end
  | Process_exits pid crashed =>
      match phase <$> procs w !! pid with
      | Some Alive => Some (exec (child_exited pid crashed) w)
      | _ => None
      end
  | Launch_confirmed pid =>
      match phase <$> procs w !! pid with
      | Some Launching => Some (exec (child_started pid) w)
      | _ => None
      end
  | Launch_refused pid =>
      match phase <$> procs w !! pid with
      | Some Launching => Some (exec (child_failed_to_start pid) w)
      | _ => None
      end
  end.

Fixpoint run (acts : list Action) (w : World) : option World :=
  match acts with
  | [] => Some w
  | a :: rest =>
      match step a w with
      | Some w' => run rest w'
      | None => None
      end
  end.

Inductive reachable : World → Prop :=
| reachable_init store : reachable (init store)
| reachable_step w a w' :
    reachable w → step a w = Some w' → reachable w'.

(** The actions in which no wait for a launch runs out: every launch is
    confirmed or refused within the 1000 ms of [waitForStarted]. *)
Definition prompt (a : Action) : bool :=
  match a with
  | Call_start StartTimedOut | Timer_fires StartTimedOut => false
  | _ => true
  end.

(** The worlds reached by such actions only. *)
Inductive reachable_prompt : World → Prop :=
| reachable_prompt_init store : reachable_prompt (init store)
| reachable_prompt_step w a w' :
    reachable_prompt w → prompt a = true → step a w = Some w' →
    reachable_prompt w'.

(** ** Reading a trace *)

(** The values [state_changed] was emitted with, oldest first. *)
Definition emissions (tr : list Event) : list bool :=
  omap (λ e, match e with StateChanged b _ => Some b | _ => None end) tr.

(** Those among them that process [pid] caused. *)
Definition notifications (pid : nat) (tr : list Event) : list bool :=
  omap (λ e, match e with
             | StateChanged b c => if decide (c = pid) then Some b else None
             | _ => None
             end) tr.

Definition silent (e : Event) : Prop :=
  match e with StateChanged _ _ => False | _ => True end.

(** [n] complete start/stop pairs. *)
Fixpoint cycles (n : nat) : list bool :=
  match n with
  | O => []
  | S n' => true :: false :: cycles n'
  end.

(** ** What the methods leave behind

    The process object, the events and the world that a method produces
    once its running test is decided; Part II proves that the methods
    compute exactly these. *)

Definition launch_confirmed (o : StartOutcome) : bool :=
  match o with Started => true | _ => false end.

(** The process object a [start] leaves behind when it goes past the
    running test. *)
Definition launched (o : StartOutcome) (t : Z) : QProcess :=
  {| phase := match o with
              | Started => Alive
              | SpawnFailed => Failed
              | StartTimedOut => Launching
              end;
     program := HYPRSUNSET_BIN;
     arguments := ["-t"; pretty t];
     finished_connected := true;
     errorOccurred_connected := true |}.

Definition start_events (o : StartOutcome) (pid : nat) (t : Z) : list Event :=
  [ Log INFO ("Starting hyprsunset with args: " +:+ shlex_join ["-t"; pretty t]);
    ProcStart pid HYPRSUNSET_BIN ["-t"; pretty t];
    WaitForStarted pid 1000 ] ++
  match o with
  | Started => [ StateChanged true pid ]
  | SpawnFailed => [ Log ERROR "QProcess error: ProcessError.FailedToStart";
                     Log ERROR "Failed to start hyprsunset" ]
  | StartTimedOut => [ Log ERROR "Failed to start hyprsunset" ]
  end.

Definition exit_events (p : QProcess) (pid : nat) (crashed : bool)
  : list Event :=
  (if crashed && errorOccurred_connected p
   then [ Log ERROR "QProcess error: ProcessError.Crashed" ] else []) ++
  (if finished_connected p
   then [ Log INFO "hyprsunset terminated"; StateChanged false pid ] else []).

Definition stop_events (p : QProcess) (pid : nat) (o : FinishOutcome)
  : list Event :=
  [ Log INFO "Stopping hyprsunset"; WaitForFinished pid 1000 ] ++
  match o with
  | Finished crashed => exit_events p pid crashed
  | FinishTimedOut => [ Kill pid ]
  end.

(** The world after the first two statements of [set_temperature]. *)
Definition stored (kelvin : Z) (w : World) : World :=
  {| process := process w;
     _temperature := Z.max MIN_TEMP (Z.min MAX_TEMP kelvin);
     procs := procs w;
     SETTINGS := <["temperature" := Z.max MIN_TEMP (Z.min MAX_TEMP kelvin)]>
                   (SETTINGS w);
     timers := timers w;
     trace := trace w ++
              [SetValue "temperature" (Z.max MIN_TEMP (Z.min MAX_TEMP kelvin))] |}.

(** The worlds after the late confirmation and the late refusal of the
    launch of [pid], that object being [p]. *)
Definition confirm_world (pid : nat) (p : QProcess) (w : World) : World :=
  {| process := process w;
     _temperature := _temperature w;
     procs := <[pid := set_phase Alive p]> (procs w);
     SETTINGS := SETTINGS w;
     timers := timers w;
     trace := trace w |}.

Definition refuse_events (p : QProcess) : list Event :=
  if errorOccurred_connected p
  then [ Log ERROR "QProcess error: ProcessError.FailedToStart" ] else [].

Definition refuse_world (pid : nat) (p : QProcess) (w : World) : World :=
  {| process := process w;
     _temperature := _temperature w;
     procs := <[pid := set_phase Failed p]> (procs w);
     SETTINGS := SETTINGS w;
     timers := timers w;
     trace := trace w ++ refuse_events p |}.

(** The world with the handle cleared, everything else as it is. *)
Definition forget_handle (w : World) : World :=
  {| process := None; _temperature := _temperature w; procs := procs w;
     SETTINGS := SETTINGS w; timers := timers w; trace := trace w |}.

(** The exit the event loop still has to report after [stop]: none when
    the child exited within the wait, the one of the killed child
    otherwise. *)
Definition exit_report (o : FinishOutcome) (pid : nat) (crashed : bool)
  : list Action :=
  match o with
  | Finished _ => []
  | FinishTimedOut => [ Process_exits pid crashed ]
  end.

(** ** Clamping, in the spec's words: constrain a value to a closed range *)

Definition clamp (t lo hi : Z) : Z :=
  if (t <? lo)%Z then lo else if (hi <? t)%Z then hi else t.

(** ** The invariants

    They speak of the handle, the process objects and the trace only.
    [Core] holds in every reachable world.  [Inv] holds as long as no wait
    for a launch has run out: no object is then left in the state
    [Starting], and the notifications are those of the phases. *)

Record Core (w : World) : Prop := {
  core_handle : ∀ pid, process w = Some pid → S pid = length (procs w);
  core_none : process w = None → procs w = [];
  core_connected : ∀ i p, procs w !! i = Some p →
                          finished_connected p = true ∧
                          errorOccurred_connected p = true
}.

Definition expected_notifications (ph : Phase) : list bool :=
  match ph with
  | Alive => [true]
  | Gone => [true; false]
  | Idle | Launching | Failed => []
  end.

Record Inv (w : World) : Prop := {
  inv_handle : ∀ pid, process w = Some pid → S pid = length (procs w);
  inv_none : process w = None → procs w = [];
  inv_alive : ∀ i p, procs w !! i = Some p → phase p = Alive →
                     process w = Some i;
  inv_connected : ∀ i p, procs w !! i = Some p →
                         finished_connected p = true ∧
                         errorOccurred_connected p = true;
  inv_notifications : ∀ i p, procs w !! i = Some p →
      notifications i (trace w) = expected_notifications (phase p);
  inv_unborn : ∀ i, length (procs w) ≤ i → notifications i (trace w) = [];
  inv_emissions : ∃ n, emissions (trace w) =
      cycles n ++ (if is_running w then [true] else []);
  inv_answered : ∀ i p, procs w !! i = Some p → phase p ≠ Launching
}.

(** ** The properties

    One definition per property proved or refuted in Part II. *)

(** Every process object in the Running state is the one the handle names,
    so two such objects are the same one. *)
Definition at_most_one_running (w : World) : Prop :=
  (∀ i p, procs w !! i = Some p → state p = Running → process w = Some i) ∧
  (∀ i j p q, procs w !! i = Some p → procs w !! j = Some q →
              state p = Running → state q = Running → i = j).

(** What each process object has caused by way of notifications, given how
    far it got, and the shape of the emissions as a whole. *)
Definition paired_notifications (w : World) : Prop :=
  (∀ pid p, procs w !! pid = Some p →
     notifications pid (trace w) =
       match phase p with
       | Alive => [true]
       | Gone => [true; false]
       | Idle | Launching | Failed => []
       end) ∧
  (∃ n, emissions (trace w) =
        cycles n ++ (if is_running w then [true] else [])).

(** [start] returns false, leaves the controller not running, logs the
    error and emits nothing. *)
Definition failed_start (o : StartOutcome) (w : World) : Prop :=
  result (start o) w = false ∧
  is_running (exec (start o) w) = false ∧
  ∃ evs, trace (exec (start o) w) = trace w ++ evs ∧
         Log ERROR "Failed to start hyprsunset" ∈ evs ∧
         emissions evs = [].

(** The claim as the spec states it. *)
Definition handle_None_when_stopped : Prop :=
  ∀ w, reachable w → is_running w = false → process w = None.

(** When the handle is None, how it gets a value, that it keeps one, and
    what "stopped" means in terms of it. *)
Definition handle_lifetime (w : World) : Prop :=
  (process w = None ↔ procs w = []) ∧
  (∀ o, is_running w = false →
        process (exec (start o) w) = Some (length (procs w)) ∧
        length (procs (exec (start o) w)) = S (length (procs w))) ∧
  (∀ a w', step a w = Some w' → process w ≠ None → process w' ≠ None) ∧
  (is_running w = false ↔
     process w = None ∨
     ∃ pid p, process w = Some pid ∧ procs w !! pid = Some p ∧
              state p ≠ Running).

(** [w1] is not running although its handle names a process object, and
    [start] on it creates and launches a new object, exactly as it does on
    [w1] with the handle cleared. *)
Definition retry_is_fresh_start (o' : StartOutcome) (w1 : World) : Prop :=
  is_running w1 = false ∧
  (∃ pid p, process w1 = Some pid ∧ procs w1 !! pid = Some p) ∧
  start o' w1 =
    (launch_confirmed o',
     {| process := Some (length (procs w1));
        _temperature := _temperature w1;
        procs := procs w1 ++ [launched o' (_temperature w1)];
        SETTINGS := SETTINGS w1;
        timers := timers w1;
        trace := trace w1 ++
                 start_events o' (length (procs w1)) (_temperature w1) |}) ∧
  start o' w1 = start o' (forget_handle w1).

(** The daemon the handle names is running, launched with [-t t]. *)
Definition running_with (t : Z) (w : World) : Prop :=
  ∃ pid p, process w = Some pid ∧ procs w !! pid = Some p ∧
           state p = Running ∧ program p = HYPRSUNSET_BIN ∧
           arguments p = ["-t"; pretty t].

Definition is_exit (a : Action) : Prop :=
  match a with Process_exits _ _ => True | _ => False end.

(** The claim as the spec states it: once the deferred restart has fired,
    whichever exits were reported in between and whatever the launch did,
    the daemon runs with the new temperature. *)
Definition restart_always_takes_effect : Prop :=
  ∀ w kelvin o exits o' w',
    reachable w → is_running w = true → Forall is_exit exits →
    run (Call_set_temperature kelvin o :: exits ++ [Timer_fires o']) w
      = Some w' →
    running_with (clamp kelvin 2000 6000) w'.

(** What [set_temperature] does on [w], and where the run ends when the
    exit of the old daemon is reported before the timer fires and the
    launch is then confirmed. *)
Definition restart_effect (kelvin : Z) (o : FinishOutcome) (crashed : bool)
    (w : World) : Prop :=
  let c := clamp kelvin 2000 6000 in
  let w1 := exec (set_temperature kelvin o) w in
  if is_running w then
    ∃ pid p, process w = Some pid ∧ procs w !! pid = Some p ∧
      trace w1 = trace w ++ [ SetValue "temperature" c ] ++
                 stop_events p pid o ++ [ SingleShot 50 ] ∧
      timers w1 = timers w ++ [50%Z] ∧
      ∃ w3, run (exit_report o pid crashed ++ [ Timer_fires Started ]) w1
              = Some w3 ∧
            running_with c w3 ∧
            ∃ evs, trace w3 = trace w ++ evs ∧ emissions evs = [false; true]
  else
    process w1 = process w ∧ procs w1 = procs w ∧ timers w1 = timers w ∧
    trace w1 = trace w ++ [ SetValue "temperature" c ].

(** ** Sample runs and worlds *)

(** A first start, a change of temperature that has to kill the daemon,
    the report of that exit, and the deferred restart. *)
Definition restart_run : list Action :=
  [ Call_start Started; Call_set_temperature 3000 FinishTimedOut;
    Process_exits 0 true; Timer_fires Started ].

Definition restarted_world : World :=
  default (init ∅) (run restart_run (init ∅)).

(** A confirmed start, then a stop during whose wait the child exits. *)
Definition stopped_world : World :=
  default (init ∅)
    (run [ Call_start Started; Call_stop (Finished false) ] (init ∅)).

(** The controller with its daemon running at the default temperature. *)
Definition running_world : World := exec (start Started) (init ∅).

(** A start whose launch is not confirmed within the wait, a second
    start whose launch is, and then the confirmation of the first launch. *)
Definition overlap_run : list Action :=
  [ Call_start StartTimedOut; Call_start Started; Launch_confirmed 0 ].

Definition overlap_world : World :=
  default (init ∅) (run overlap_run (init ∅)).

(** A start whose launch is confirmed only after the wait; later that
    daemon exits. *)
Definition late_run : list Action :=
  [ Call_start StartTimedOut; Launch_confirmed 0; Process_exits 0 false ].

Definition late_world : World :=
  default (init ∅) (run late_run (init ∅)).

(** A store in which the key holds a value outside the range. *)
Definition edited_store : gmap string Z := {[ "temperature" := 7500%Z ]}.

(** ** The effects of a step

    The worlds a step can lead to, written out.  [step_effects] in Part II
    shows that every step is one of these, or a timer taken off the list
    followed by one of these. *)

Definition launch_world (o : StartOutcome) (w : World) : World :=
  {| process := Some (length (procs w));
     _temperature := _temperature w;
     procs := procs w ++ [launched o (_temperature w)];
     SETTINGS := SETTINGS w;
     timers := timers w;
     trace := trace w ++ start_events o (length (procs w)) (_temperature w) |}.

Definition stop_world (pid : nat) (p : QProcess) (o : FinishOutcome)
    (w : World) : World :=
  {| process := process w;
     _temperature := _temperature w;
     procs := match o with
              | Finished _ => <[pid := set_phase Gone p]> (procs w)
              | FinishTimedOut => procs w
              end;
     SETTINGS := SETTINGS w;
     timers := timers w;
     trace := trace w ++ stop_events p pid o |}.

Definition exit_world (pid : nat) (p : QProcess) (crashed : bool)
    (w : World) : World :=
  {| process := process w;
     _temperature := _temperature w;
     procs := <[pid := set_phase Gone p]> (procs w);
     SETTINGS := SETTINGS w;
     timers := timers w;
     trace := trace w ++ exit_events p pid crashed |}.

Definition scheduled (w : World) : World :=
  {| process := process w;
     _temperature := _temperature w;
     procs := procs w;
     SETTINGS := SETTINGS w;
     timers := timers w ++ [50%Z];
     trace := trace w ++ [SingleShot 50] |}.

Inductive effect (w : World) : World → Prop :=
| effect_none :
    effect w w
| effect_launch o :
    is_running w = false → effect w (launch_world o w)
| effect_stop pid p o :
    process w = Some pid → procs w !! pid = Some p → phase p = Alive →
    effect w (stop_world pid p o w)
| effect_store kelvin :
    is_running w = false → effect w (stored kelvin w)
| effect_restart kelvin pid p o :
    process w = Some pid → procs w !! pid = Some p → phase p = Alive →
    effect w (scheduled (stop_world pid p o (stored kelvin w)))
| effect_timer d rest :
    timers w = d :: rest → effect w (exec (set_timers rest) w)
| effect_exit pid p crashed :
    procs w !! pid = Some p → phase p = Alive →
    effect w (exit_world pid p crashed w)
| effect_confirm pid p :
    procs w !! pid = Some p → phase p = Launching →
    effect w (confirm_world pid p w)
| effect_refuse pid p :
    procs w !! pid = Some p → phase p = Launching →
    effect w (refuse_world pid p w).

(** ** What a trace may contain *)

(** The requests the controller makes of the store, of the system and of
    the timers. *)
Definition allowed (e : Event) : Prop :=
  match e with
  | SetValue key v => key = "temperature" ∧ (2000 ≤ v ≤ 6000)%Z
  | ProcStart _ prog args =>
      prog = HYPRSUNSET_BIN ∧ ∃ t : Z, args = ["-t"; pretty t]
  | WaitForStarted _ ms | WaitForFinished _ ms => ms = 1000%Z
  | SingleShot ms => ms = 50%Z
  | Terminate _ => False
  | Log _ _ | Kill _ | StateChanged _ _ => True
  end.

(** The launches recorded in a trace: process, program, arguments. *)
Definition launch_events (tr : list Event)
  : list (nat * string * list string) :=
  omap (λ e, match e with
             | ProcStart pid prog args => Some (pid, prog, args)
             | _ => None
             end) tr.

(** Whether [e] may come right after [prev]: a kill only after the wait
    for the same process. *)
Definition kill_allowed (prev : option Event) (e : Event) : bool :=
  match e, prev with
  | Kill pid, Some (WaitForFinished q ms) =>
      bool_decide (q = pid) && bool_decide (ms = 1000%Z)
  | Kill _, _ => false
  | _, _ => true
  end.

Fixpoint kills_follow_waits (prev : option Event) (tr : list Event) : bool :=
  match tr with
  | [] => true
  | e :: tr' => kill_allowed prev e && kills_follow_waits (Some e) tr'
  end.

(** ** A second invariant

    On the store, the command lines and the requests in the trace. *)

Record Inv2 (w : World) : Prop := {
  inv_persisted : DEFAULT_TEMP (SETTINGS w) = _temperature w;
  inv_launches :
      launch_events (trace w)
      = imap (λ i p, (i, program p, arguments p)) (procs w);
  inv_cmdline : Forall (λ p, program p = HYPRSUNSET_BIN ∧
                             ∃ t : Z, arguments p = ["-t"; pretty t])
                       (procs w);
  inv_allowed : Forall allowed (trace w);
  inv_timers : Forall (λ d, d = 50%Z) (timers w);
  inv_kills : kills_follow_waits None (trace w) = true
}.

(** ** Further properties of the controller *)

(** Starting the application again on the store as it is now gives a
    controller with the temperature this one has. *)
Definition temperature_survives_restart (w : World) : Prop :=
  temperature (init (SETTINGS w)) = temperature w.

(** The running daemon was launched with the current temperature, unless
    the controller has already sent it a kill. *)
Definition daemon_is_current (w : World) : Prop :=
  ∀ pid p, process w = Some pid → procs w !! pid = Some p →
           state p = Running →
           arguments p = ["-t"; pretty (temperature w)] ∨ Kill pid ∈ trace w.

(** Process objects and launches correspond one to one, in order, and
    every launch is [hyprsunset -t <integer>]. *)
Definition one_object_per_launch (w : World) : Prop :=
  launch_events (trace w)
    = imap (λ i p, (i, program p, arguments p)) (procs w) ∧
  Forall (λ p, program p = HYPRSUNSET_BIN ∧
               ∃ t : Z, arguments p = ["-t"; pretty t]) (procs w).

(** The requests in the trace and the pending timers are of the shapes
    the source writes. *)
Definition only_known_requests (w : World) : Prop :=
  Forall allowed (trace w) ∧ Forall (λ d, d = 50%Z) (timers w).

(** Every kill in the trace comes right after the 1000 ms wait for the
    same process. *)
Definition kill_only_after_wait (w : World) : Prop :=
  ∀ pre pid post,
    trace w = pre ++ Kill pid :: post →
    ∃ pre', pre = pre' ++ [WaitForFinished pid 1000].

(** A process object whose child is running or still being launched is
    the one the handle names. *)
Definition only_handle_is_live (w : World) : Prop :=
  ∀ i p, procs w !! i = Some p → state p ≠ NotRunning → process w = Some i.

(** The late confirmation of the launch of [pid] records nothing and
    emits nothing; the object is Running after it, and if the handle
    names it the controller, which was not running, now is. *)
Definition silent_confirmation (pid : nat) (w w' : World) : Prop :=
  trace w' = trace w ∧
  state <$> procs w' !! pid = Some Running ∧
  (process w = Some pid → is_running w = false ∧ is_running w' = true).

(** The exit reported by [Process_exits pid] is the exit of the daemon
    the handle names; the controller is running before it and not after,
    and the report emits one false. *)
Definition exit_stops_controller (pid : nat) (w w' : World) : Prop :=
  process w = Some pid ∧ is_running w = true ∧ is_running w' = false ∧
  ∃ evs, trace w' = trace w ++ evs ∧ emissions evs = [false].

(** A stop right after a stop during whose wait the child exited. *)
Definition second_stop_is_noop (o : FinishOutcome) (crashed : bool)
    (w : World) : Prop :=
  stop o (exec (stop (Finished crashed)) w)
  = (tt, exec (stop (Finished crashed)) w).

(** The store holds no temperature outside the range. *)
Definition store_in_range (s : gmap string Z) : Prop :=
  ∀ t, s !! "temperature" = Some t → (2000 ≤ t ≤ 6000)%Z.


(** A run that starts the daemon, changes the temperature twice (the
    first time the daemon has to be killed) and stops it. *)
Definition busy_run : list Action :=
  [ Call_start Started; Call_set_temperature 7500 FinishTimedOut;
    Process_exits 0 true; Timer_fires Started;
    Call_set_temperature 2500 (Finished false); Timer_fires SpawnFailed;
    Call_start Started; Call_stop FinishTimedOut ].

Definition busy_world : World :=
  default (init ∅) (run busy_run (init ∅)).


(** What a step tells its listeners.  Either it emits nothing, and then
    [is_running] is what it was and a running daemon is the one that was
    running; or it emits [state_changed] once, with the value [is_running]
    has after the step, and a daemon running then was launched with the
    temperature of that moment. *)
Definition announced (w w' : World) : Prop :=
  ∃ evs, trace w' = trace w ++ evs ∧
    ((emissions evs = [] ∧ is_running w' = is_running w ∧
      ∀ pid p, process w' = Some pid → procs w' !! pid = Some p →
               phase p = Alive →
               process w = Some pid ∧ procs w !! pid = Some p)
     ∨
     (emissions evs = [is_running w'] ∧
      ∀ pid p, process w' = Some pid → procs w' !! pid = Some p →
               phase p = Alive →
               arguments p = ["-t"; pretty (_temperature w')])).

(** ** The tray and the temperature dialog

    [HyprsunsetTray] and [TempDialog], as far as they hold state and call
    the controller.  What Qt decides is written out where it is used: a
    slider keeps its value within its range and reports a value only when
    it changes; a menu action that is disabled cannot be triggered. *)

Inductive Icon :=
| NullIcon                        (* a tray icon before setIcon *)
| ThemeIcon (name : string)       (* QIcon.fromTheme(name) *)
| PaintedIcon (color : string).   (* the ellipse painted in that colour *)

Record TempDialog := {
  _pending : Z;
  slider : Z;       (* slider.value() *)
  label : string;   (* label.text() *)
  shown : bool
}.

Record HyprsunsetTray := {
  temp_dialog : option TempDialog;
  toggle_action : string;   (* its text *)
  temp_action : bool;       (* whether it is enabled *)
  toolTip : string;
  icon : Icon
}.

(** The application: the controller's world, the tray, and the boolean
    keys of the settings store. *)
Record App := {
  controller : World;
  tray : HyprsunsetTray;
  FLAGS : gmap string bool
}.

Inductive ActivationReason :=
| Unknown | Context | DoubleClick | Trigger | MiddleClick.

(** [slider.setRange(MIN_TEMP, MAX_TEMP)]: the value a slider with that
    range takes when asked for [v]. *)
Definition QSlider_bound (v : Z) : Z := Z.max MIN_TEMP (Z.min MAX_TEMP v).

(** [TempDialog.__init__]: the slider is given the pending value before
    its signal is connected, so neither lambda runs here. *)
Definition TempDialog_init (t : Z) : TempDialog :=
  {| _pending := t;
     slider := QSlider_bound t;
     label := pretty t +:+ "K";
     shown := false |}.

(** The slider is asked for [v] (by the user): when its value changes,
    [valueChanged] runs the two lambdas. *)
Definition slider_moved (v : Z) (d : TempDialog) : TempDialog :=
  let v' := QSlider_bound v in
  if bool_decide (v' = slider d) then d
  else {| _pending := v'; slider := v'; label := pretty v' +:+ "K";
          shown := shown d |}.

Section Tray.

(** [QIcon.hasThemeIcon] of the desktop's icon theme. *)
Variable hasThemeIcon : string → bool.

Definition _icon_for_state (running : bool) : Icon :=
  let icon_name := if running then "weather-clear-night" else "weather-clear" in
  if hasThemeIcon icon_name then ThemeIcon icon_name
  else PaintedIcon (if running then "#ffcc00" else "#ffffff").

Definition _on_controller_state_changed (running : bool) (a : App) : App :=
  {| controller := controller a;
     tray := {| temp_dialog := temp_dialog (tray a);
                toggle_action := if running then "Disable Hyprsunset"
                                 else "Enable Hyprsunset";
                temp_action := running;
                toolTip := "Hyprsunset: " +:+
                           pretty (temperature (controller a)) +:+ "K";
                icon := _icon_for_state running |};
     FLAGS := <["enabled" := running]> (FLAGS a) |}.

(** A method of the controller called from the tray.  [state_changed] is
    connected to the slot above, which runs once for every emission of
    the call.  The slot reads the controller's temperature and nothing
    else of it, and in every method the temperature is assigned before
    anything is emitted: the slot runs here on the world the call ends
    in. *)
Definition call (m : World → World) (a : App) : App :=
  let w' := m (controller a) in
  foldl (λ a' running, _on_controller_state_changed running a')
    {| controller := w'; tray := tray a; FLAGS := FLAGS a |}
    (emissions (drop (length (trace (controller a))) (trace w'))).

(** [HyprsunsetTray.__init__] on a controller in world [w], the boolean
    keys of the store being [flags]. *)
Definition HyprsunsetTray_init (o : StartOutcome) (w : World)
    (flags : gmap string bool) : App :=
  let a0 := {| controller := w;
               tray := {| temp_dialog := None;
                          toggle_action := "Enable Hyprsunset";
                          temp_action := true;
                          toolTip := "Hyprsunset: " +:+
                                     pretty (temperature w) +:+ "K";
                          icon := NullIcon |};
               FLAGS := flags |} in
  let a1 := _on_controller_state_changed (is_running w) a0 in
  if default false (FLAGS a1 !! "enabled")
  then call (exec (start o)) a1
  else a1.

Definition _toggle (os : StartOutcome) (fo : FinishOutcome) (a : App) : App :=
  if is_running (controller a)
  then call (exec (stop fo)) a
  else call (exec (start os)) a.

Definition _on_activated (reason : ActivationReason) (os : StartOutcome)
    (fo : FinishOutcome) (a : App) : App :=
  match reason with
  | Trigger => _toggle os fo a
  | _ => a
  end.

Definition set_dialog (d : option TempDialog) (a : App) : App :=
  {| controller := controller a;
     tray := {| temp_dialog := d;
                toggle_action := toggle_action (tray a);
                temp_action := temp_action (tray a);
                toolTip := toolTip (tray a);
                icon := icon (tray a) |};
     FLAGS := FLAGS a |}.

Definition show (d : TempDialog) : TempDialog :=
  {| _pending := _pending d; slider := slider d; label := label d;
     shown := true |}.

Definition hide (d : TempDialog) : TempDialog :=
  {| _pending := _pending d; slider := slider d; label := label d;
     shown := false |}.

Definition _show_temp_dialog (a : App) : App :=
  let d := match temp_dialog (tray a) with
           | None => TempDialog_init (temperature (controller a))
           | Some d => d
           end in
  set_dialog (Some (show d)) a.

(** [TempDialog.closeEvent] of the tray's dialog [d]. *)
Definition closeEvent (d : TempDialog) (fo : FinishOutcome) (a : App) : App :=
  set_dialog (Some (hide d))
    (call (exec (set_temperature (_pending d) fo)) a).

(** What the user and the event loop do to the application. *)
Inductive AppAction :=
| Menu_toggle (os : StartOutcome) (fo : FinishOutcome)
| Icon_activated (reason : ActivationReason)
                 (os : StartOutcome) (fo : FinishOutcome)
| Menu_temperature
| Slider_moved (v : Z)
| Dialog_closed (fo : FinishOutcome)
| Loop (ev : Action).   (* a timer fires, a process exits, a launch that
                          was pending is confirmed or refused *)

Definition app_step (act : AppAction) (a : App) : option App :=
  match act with
  | Menu_toggle os fo => Some (_toggle os fo a)
  | Icon_activated reason os fo => Some (_on_activated reason os fo a)
  | Menu_temperature =>
      if temp_action (tray a) then Some (_show_temp_dialog a) else None
  | Slider_moved v =>
      match temp_dialog (tray a) with
      | Some d => if shown d then Some (set_dialog (Some (slider_moved v d)) a)
                  else None
      | None => None
      end
  | Dialog_closed fo =>
      match temp_dialog (tray a) with
      | Some d => if shown d then Some (closeEvent d fo a) else None
      | None => None
      end
  | Loop (Call_start _) | Loop (Call_stop _)
  | Loop (Call_set_temperature _ _) => None
  | Loop ev =>
      match step ev (controller a) with
      | Some w' => Some (call (λ _, w') a)
      | None => None
      end
  end.

(** The applications [main] can get to from the store [store] and the
    boolean keys [flags]: it constructs the controller, then the tray. *)
Inductive app_reachable (store : gmap string Z) : App → Prop :=
| app_reachable_init o flags :
    app_reachable store (HyprsunsetTray_init o (init store) flags)
| app_reachable_step a act a' :
    app_reachable store a → app_step act a = Some a' →
    app_reachable store a'.

(** The actions of the application in which no wait for a launch runs
    out, and the applications reached by such actions only. *)
Definition app_prompt (act : AppAction) : bool :=
  match act with
  | Menu_toggle os _ | Icon_activated _ os _ => prompt (Call_start os)
  | Loop ev => prompt ev
  | Menu_temperature | Slider_moved _ | Dialog_closed _ => true
  end.

Inductive app_reachable_prompt (store : gmap string Z) : App → Prop :=
| app_reachable_prompt_init o flags :
    app_reachable_prompt store (HyprsunsetTray_init o (init store) flags)
| app_reachable_prompt_step a act a' :
    app_reachable_prompt store a → app_prompt act = true →
    app_step act a = Some a' →
    app_reachable_prompt store a'.

(** The tray shows the state of the controller. *)
Definition mirrors (a : App) : Prop :=
  let running := is_running (controller a) in
  toggle_action (tray a)
    = (if running then "Disable Hyprsunset" else "Enable Hyprsunset") ∧
  temp_action (tray a) = running ∧
  icon (tray a) = _icon_for_state running ∧
  FLAGS a !! "enabled" = Some running.

(** The tooltip shows the temperature the running daemon was launched
    with. *)
Definition tooltip_shows_daemon (a : App) : Prop :=
  ∀ pid p, process (controller a) = Some pid →
           procs (controller a) !! pid = Some p → state p = Running →
           ∃ t : Z, arguments p = ["-t"; pretty t] ∧
                    toolTip (tray a) = "Hyprsunset: " +:+ pretty t +:+ "K".

(** Constructing the tray leaves the controller as it is and sets the
    flag to whether it is running. *)
Definition init_leaves_controller (o : StartOutcome) (w : World)
    (flags : gmap string bool) : Prop :=
  controller (HyprsunsetTray_init o w flags) = w ∧
  FLAGS (HyprsunsetTray_init o w flags) !! "enabled" = Some (is_running w).

(** Whether the controller runs after a toggle. *)
Definition toggle_outcome (os : StartOutcome) (fo : FinishOutcome)
    (a : App) : Prop :=
  is_running (controller (_toggle os fo a))
  = if is_running (controller a)
    then match fo with Finished _ => false | FinishTimedOut => true end
    else launch_confirmed os.

(** The dialog, if there is one, shows one value in its slider, its
    label and its pending temperature, within the range. *)
Definition dialog_consistent (a : App) : Prop :=
  ∀ d, temp_dialog (tray a) = Some d →
       slider d = _pending d ∧ label d = pretty (_pending d) +:+ "K" ∧
       (2000 ≤ _pending d ≤ 6000)%Z.

(** Closing the dialog stores the value it shows. *)
Definition close_stores_shown (d : TempDialog) (a' : App) : Prop :=
  temperature (controller a') = slider d ∧
  SETTINGS (controller a') !! "temperature" = Some (slider d) ∧
  label d = pretty (temperature (controller a')) +:+ "K".

(** What holds of an application reached from the store [store]. *)
Record AppInv (store : gmap string Z) (a : App) : Prop := {
  ai_runs : ∃ acts, run acts (init store) = Some (controller a);
  ai_dialog : store_in_range store → dialog_consistent a
}.

(** What holds of it in addition as long as no wait for a launch has run
    out. *)
Record AppPrompt (a : App) : Prop := {
  ap_prompt : reachable_prompt (controller a);
  ap_mirrors : mirrors a;
  ap_tooltip : tooltip_shows_daemon a
}.

End Tray.

Fixpoint app_run (hasThemeIcon : string → bool) (acts : list AppAction)
    (a : App) : option App :=
  match acts with
  | [] => Some a
  | act :: rest =>
      match app_step hasThemeIcon act a with
      | Some a' => app_run hasThemeIcon rest a'
      | None => None
      end
  end.

(** A desktop whose icon theme has neither icon. *)
Definition no_theme : string → bool := λ _, false.

(** The tray is clicked, the dialog is opened, its slider dragged to
    3000, and the dialog closed while the daemon lingers and is killed. *)
Definition demo_clicks : list AppAction :=
  [ Icon_activated Trigger Started FinishTimedOut; Menu_temperature;
    Slider_moved 12000; Slider_moved 3000; Dialog_closed FinishTimedOut ].

Definition demo_app : App :=
  default (HyprsunsetTray_init no_theme Started (init ∅) ∅)
    (app_run no_theme demo_clicks
       (HyprsunsetTray_init no_theme Started (init ∅) ∅)).

(** The controller after a start whose wait for the launch ran out. *)
Definition waiting_world : World := exec (start StartTimedOut) (init ∅).

(** The dialog of [demo_app]. *)
Definition demo_dialog : TempDialog :=
  {| _pending := 3000; slider := 3000; label := "3000K"; shown := false |}.

(** A stop does not take back a restart that is pending: the timers are
    those of before, and when the next one fires with a confirmed launch
    the daemon runs again. *)
Definition stop_keeps_restart (crashed : bool) (w : World) : Prop :=
  let w1 := exec (stop (Finished crashed)) w in
  timers w1 = timers w ∧ is_running w1 = false ∧
  ∃ w2, step (Timer_fires Started) w1 = Some w2 ∧ is_running w2 = true.

(** The daemon runs, the temperature is changed, the daemon is killed and
    its exit reported; the restart is pending. *)
Definition pending_world : World :=
  default (init ∅)
    (run [ Call_start Started; Call_set_temperature 3000 FinishTimedOut;
           Process_exits 0 true ] (init ∅)).

(** * Part II: proofs *)

(** ** Trying the model *)

Example run_start_stop :
  trace <$> run [Call_start Started; Call_stop FinishTimedOut;
                 Process_exits 0 true] (init ∅)
  = Some [ Log INFO "Starting hyprsunset with args: -t 4000";
           ProcStart 0 "hyprsunset" ["-t"; "4000"];
           WaitForStarted 0 1000;
           StateChanged true 0;
           Log INFO "Stopping hyprsunset";
           WaitForFinished 0 1000;
           Kill 0;
           Log ERROR "QProcess error: ProcessError.Crashed";
           Log INFO "hyprsunset terminated";
           StateChanged false 0 ].
Proof. vm_compute. reflexivity. Qed.

(** ** Lists and clamping *)

Lemma lookup_snoc_last {A} (l : list A) (x : A) :
  (l ++ [x]) !! length l = Some x.
Proof. by apply list_lookup_middle. Qed.

Lemma insert_snoc_last {A} (l : list A) (x y : A) :
  <[length l := y]> (l ++ [x]) = l ++ [y].
Proof.
  rewrite insert_app_r_alt by lia. by rewrite Nat.sub_diag.
Qed.

Lemma snoc_is_cons (l : list Z) (x : Z) : ∃ d rest, l ++ [x] = d :: rest.
Proof. destruct l; simpl; eauto. Qed.

Lemma cycles_snoc (n : nat) : cycles n ++ [true; false] = cycles (S n).
Proof. induction n as [|n IH]; simpl; [done|]. by rewrite IH. Qed.

Lemma max_min_is_clamp (t : Z) :
  Z.max MIN_TEMP (Z.min MAX_TEMP t) = clamp t 2000 6000.
Proof.
  unfold clamp, MIN_TEMP, MAX_TEMP.
  destruct (Z.ltb_spec t 2000), (Z.ltb_spec 6000 t); lia.
Qed.

Lemma clamp_in_range (t : Z) : (2000 ≤ clamp t 2000 6000 ≤ 6000)%Z.
Proof.
  unfold clamp.
  destruct (Z.ltb_spec t 2000), (Z.ltb_spec 6000 t); lia.
Qed.

(** ** Equations of the methods

    Each method is a straight line once the running test is decided; the
    lemmas below give the world it ends in. *)

Ltac unfold_qt :=
  unfold QTimer_singleShot, QProcess_kill, QProcess_waitForFinished,
    child_exited, QProcess_waitForStarted, QProcess_start,
    connect_finished, connect_errorOccurred, QProcess_new,
    deliver_finished, deliver_errorOccurred, _on_error, _on_finished,
    update_proc, emit, log, record, set_process, set_temperature_attr,
    set_procs, set_SETTINGS, set_timers, gets, bind, ret in *.

Lemma is_running_true (w : World) :
  is_running w = true ↔
  ∃ pid p, process w = Some pid ∧ procs w !! pid = Some p ∧ phase p = Alive.
Proof.
  unfold is_running, state. split.
  - destruct (process w) as [pid|]; [|done].
    destruct (procs w !! pid) as [p|] eqn:Hp; [|done].
    intros H%bool_decide_eq_true. exists pid, p.
    destruct (phase p); naive_solver.
  - intros (pid & p & -> & -> & ->). done.
Qed.

Lemma is_running_frame (w w' : World) :
  process w' = process w → procs w' = procs w →
  is_running w' = is_running w.
Proof. unfold is_running. by intros -> ->. Qed.

Lemma state_Running (p : QProcess) : state p = Running ↔ phase p = Alive.
Proof. unfold state. destruct (phase p); naive_solver. Qed.

Lemma start_running (o : StartOutcome) (w : World) :
  is_running w = true → start o w = (true, w).
Proof. intros H. unfold start, bind, gets. by rewrite H. Qed.

Lemma stop_not_running (o : FinishOutcome) (w : World) :
  is_running w = false → stop o w = (tt, w).
Proof. intros H. unfold stop, bind, gets. rewrite H. by destruct (process w). Qed.

Lemma start_not_running (o : StartOutcome) (w : World) :
  is_running w = false →
  start o w =
    (launch_confirmed o,
     {| process := Some (length (procs w));
        _temperature := _temperature w;
        procs := procs w ++ [launched o (_temperature w)];
        SETTINGS := SETTINGS w;
        timers := timers w;
        trace := trace w ++ start_events o (length (procs w)) (_temperature w) |}).
Proof.
  intros H. unfold start, bind at 1, gets at 1. rewrite H.
  unfold_qt. simpl.
  repeat (rewrite ?lookup_snoc_last, ?insert_snoc_last; simpl).
  destruct o; simpl;
    repeat (rewrite ?lookup_snoc_last, ?insert_snoc_last; simpl);
    rewrite <- ?app_assoc; reflexivity.
Qed.

Lemma child_exited_eq (pid : nat) (crashed : bool) (w : World) (p : QProcess) :
  procs w !! pid = Some p →
  child_exited pid crashed w =
    (tt, {| process := process w;
            _temperature := _temperature w;
            procs := <[pid := set_phase Gone p]> (procs w);
            SETTINGS := SETTINGS w;
            timers := timers w;
            trace := trace w ++ exit_events p pid crashed |}).
Proof.
  intros Hp. pose proof (lookup_lt_Some _ _ _ Hp) as Hlt.
  destruct p as [ph prog args fc ec].
  unfold exit_events. unfold_qt. simpl. rewrite Hp. simpl.
  destruct crashed, fc, ec; simpl;
    repeat (rewrite ?list_lookup_insert_eq by done; simpl);
    rewrite <- ?app_assoc, ?app_nil_r; reflexivity.
Qed.

Lemma child_started_eq (pid : nat) (w : World) (p : QProcess) :
  procs w !! pid = Some p →
  child_started pid w = (tt, confirm_world pid p w).
Proof.
  intros Hp. unfold child_started, confirm_world. unfold_qt. by rewrite Hp.
Qed.

Lemma child_failed_to_start_eq (pid : nat) (w : World) (p : QProcess) :
  procs w !! pid = Some p →
  child_failed_to_start pid w = (tt, refuse_world pid p w).
Proof.
  intros Hp. pose proof (lookup_lt_Some _ _ _ Hp) as Hlt.
  destruct p as [ph prog args fc ec].
  unfold child_failed_to_start, refuse_world, refuse_events.
  unfold_qt. simpl. rewrite Hp. simpl.
  rewrite list_lookup_insert_eq by done. simpl.
  destruct ec; simpl; rewrite ?app_nil_r; reflexivity.
Qed.

Lemma stop_running (o : FinishOutcome) (w : World) (pid : nat) (p : QProcess) :
  process w = Some pid → procs w !! pid = Some p → phase p = Alive →
  stop o w =
    (tt, {| process := process w;
            _temperature := _temperature w;
            procs := match o with
                     | Finished _ => <[pid := set_phase Gone p]> (procs w)
                     | FinishTimedOut => procs w
                     end;
            SETTINGS := SETTINGS w;
            timers := timers w;
            trace := trace w ++ stop_events p pid o |}).
Proof.
  intros Hh Hp Hph.
  assert (is_running w = true) as Hr
    by (apply is_running_true; eauto).
  unfold stop, bind at 1, gets at 1. rewrite Hr.
  unfold bind at 1, gets at 1. rewrite Hh. simpl.
  unfold QProcess_waitForFinished, QProcess_kill, log.
  unfold bind at 1, record at 1.
  unfold bind at 1. unfold bind at 1, record at 1.
  unfold bind at 1, gets at 1. simpl. rewrite Hp. simpl. rewrite Hph.
  destruct o as [crashed|]; simpl.
  - unfold bind at 1.
    rewrite (child_exited_eq pid crashed _ p) by exact Hp. simpl.
    unfold ret, stop_events. simpl. by rewrite Hh, <- !app_assoc.
  - unfold ret, record, stop_events. simpl. by rewrite Hh, <- !app_assoc.
Qed.

Lemma stop_frame (o : FinishOutcome) (w : World) :
  process (exec (stop o) w) = process w ∧
  _temperature (exec (stop o) w) = _temperature w ∧
  SETTINGS (exec (stop o) w) = SETTINGS w ∧
  timers (exec (stop o) w) = timers w ∧
  length (procs (exec (stop o) w)) = length (procs w) ∧
  ∃ evs, trace (exec (stop o) w) = trace w ++ evs.
Proof.
  unfold exec. destruct (is_running w) eqn:Hr.
  - apply is_running_true in Hr as (pid & p & Hh & Hp & Hph).
    rewrite (stop_running o w pid p) by done. simpl.
    repeat split; [|eauto]. destruct o; [apply length_insert|done].
  - rewrite stop_not_running by done. simpl.
    repeat split. exists []. by rewrite app_nil_r.
Qed.

Lemma set_temperature_eq (kelvin : Z) (o : FinishOutcome) (w : World) :
  set_temperature kelvin o w =
    if is_running w then _restart o (stored kelvin w) else (tt, stored kelvin w).
Proof.
  unfold set_temperature, set_temperature_attr, set_SETTINGS, record,
    QSettings_setValue, bind, gets. simpl.
  rewrite (is_running_frame w) by done.
  by destruct (is_running w).
Qed.

Lemma _restart_eq (o : FinishOutcome) (w : World) :
  _restart o w =
    (tt, {| process := process (exec (stop o) w);
            _temperature := _temperature (exec (stop o) w);
            procs := procs (exec (stop o) w);
            SETTINGS := SETTINGS (exec (stop o) w);
            timers := timers (exec (stop o) w) ++ [50%Z];
            trace := trace (exec (stop o) w) ++ [SingleShot 50] |}).
Proof.
  unfold _restart, QTimer_singleShot, record, set_timers, bind, gets, exec.
  by destruct (stop o w) as [[] w'].
Qed.

Lemma start_process (o : StartOutcome) (w : World) :
  process (exec (start o) w) =
    if is_running w then process w else Some (length (procs w)).
Proof.
  unfold exec. destruct (is_running w) eqn:Hr.
  - by rewrite start_running.
  - by rewrite start_not_running.
Qed.

Lemma start_temperature (o : StartOutcome) (w : World) :
  _temperature (exec (start o) w) = _temperature w.
Proof.
  unfold exec. destruct (is_running w) eqn:Hr.
  - by rewrite start_running.
  - by rewrite start_not_running.
Qed.

Lemma start_true_running (o : StartOutcome) (w w1 : World) :
  start o w = (true, w1) → is_running w1 = true.
Proof.
  destruct (is_running w) eqn:Hr.
  - rewrite start_running by done. by intros [= <-].
  - rewrite start_not_running by done. intros [= Ho <-].
    unfold is_running. simpl. rewrite lookup_snoc_last.
    by destruct o.
Qed.

Lemma set_temperature_process (kelvin : Z) (o : FinishOutcome) (w : World) :
  process (exec (set_temperature kelvin o) w) = process w.
Proof.
  unfold exec. rewrite set_temperature_eq.
  destruct (is_running w); [|done].
  rewrite _restart_eq. simpl.
  by destruct (stop_frame o (stored kelvin w)) as (-> & _).
Qed.

Lemma set_temperature_stores (kelvin : Z) (o : FinishOutcome) (w : World) :
  _temperature (exec (set_temperature kelvin o) w) = clamp kelvin 2000 6000 ∧
  SETTINGS (exec (set_temperature kelvin o) w) !! "temperature"
    = Some (clamp kelvin 2000 6000) ∧
  ∃ evs, trace (exec (set_temperature kelvin o) w) =
         trace w ++ SetValue "temperature" (clamp kelvin 2000 6000) :: evs.
Proof.
  unfold exec. rewrite set_temperature_eq, <- max_min_is_clamp.
  destruct (is_running w).
  - rewrite _restart_eq. simpl.
    destruct (stop_frame o (stored kelvin w))
      as (_ & Ht & Hs & _ & _ & evs & He).
    rewrite Ht, Hs, He. simpl.
    split; [done|]. split; [apply lookup_insert_eq|].
    exists (evs ++ [SingleShot 50]). by rewrite <- !app_assoc.
  - simpl. split; [done|]. split; [apply lookup_insert_eq|].
    by exists [].
Qed.

Lemma set_temperature_temperature (kelvin : Z) (o : FinishOutcome) (w : World) :
  _temperature (exec (set_temperature kelvin o) w) = clamp kelvin 2000 6000.
Proof. by destruct (set_temperature_stores kelvin o w) as [? _]. Qed.

(** ** Steps and runs *)

Lemma step_Timer_fires (o : StartOutcome) (w : World) (d : Z) (rest : list Z) :
  timers w = d :: rest →
  step (Timer_fires o) w = Some (exec (start o) (exec (set_timers rest) w)).
Proof. intros Ht. simpl. by rewrite Ht. Qed.

Lemma step_Process_exits (pid : nat) (crashed : bool) (w : World) (p : QProcess) :
  procs w !! pid = Some p → phase p = Alive →
  step (Process_exits pid crashed) w = Some (exec (child_exited pid crashed) w).
Proof. intros Hp Hph. simpl. rewrite Hp. simpl. by rewrite Hph. Qed.

Lemma step_Launch_confirmed (pid : nat) (w w' : World) :
  step (Launch_confirmed pid) w = Some w' →
  ∃ p, procs w !! pid = Some p ∧ phase p = Launching ∧
       w' = confirm_world pid p w.
Proof.
  simpl. destruct (procs w !! pid) as [p|] eqn:Hp; [|done]. simpl.
  destruct (phase p) eqn:Hph; try done. intros [= <-].
  exists p. unfold exec. by rewrite (child_started_eq pid w p).
Qed.

Lemma step_Launch_refused (pid : nat) (w w' : World) :
  step (Launch_refused pid) w = Some w' →
  ∃ p, procs w !! pid = Some p ∧ phase p = Launching ∧
       w' = refuse_world pid p w.
Proof.
  simpl. destruct (procs w !! pid) as [p|] eqn:Hp; [|done]. simpl.
  destruct (phase p) eqn:Hph; try done. intros [= <-].
  exists p. unfold exec. by rewrite (child_failed_to_start_eq pid w p).
Qed.

Lemma run_cons (a : Action) (acts : list Action) (w w' : World) :
  step a w = Some w' → run (a :: acts) w = run acts w'.
Proof. intros Hs. simpl. by rewrite Hs. Qed.

Lemma run_reachable (acts : list Action) (w w' : World) :
  reachable w → run acts w = Some w' → reachable w'.
Proof.
  revert w. induction acts as [|a acts IH]; intros w Hw; simpl.
  - by intros [= <-].
  - destruct (step a w) as [w1|] eqn:Hs; [|done].
    intros Hrun. eapply IH; [|done]. by eapply reachable_step.
Qed.

Lemma run_reachable_prompt (acts : list Action) (w w' : World) :
  reachable_prompt w → forallb prompt acts = true → run acts w = Some w' →
  reachable_prompt w'.
Proof.
  revert w. induction acts as [|a acts IH]; intros w Hw; simpl.
  - by intros _ [= <-].
  - intros [Ha Hacts]%andb_true_iff.
    destruct (step a w) as [w1|] eqn:Hs; [|done].
    intros Hrun. eapply IH; [|done..]. by eapply reachable_prompt_step.
Qed.

Lemma reachable_prompt_reachable (w : World) :
  reachable_prompt w → reachable w.
Proof.
  induction 1 as [store|w a w' _ IH _ Hs]; [apply reachable_init|].
  by eapply reachable_step.
Qed.

Lemma step_process_kept (a : Action) (w w' : World) :
  step a w = Some w' → process w ≠ None → process w' ≠ None.
Proof.
  intros Hs Hh. destruct a as [o|o|k o|o|pid crashed|pid|pid].
  - injection Hs as <-. rewrite start_process. by destruct (is_running w).
  - injection Hs as <-. by destruct (stop_frame o w) as (-> & _).
  - injection Hs as <-. by rewrite set_temperature_process.
  - simpl in Hs. destruct (timers w) as [|d rest]; [done|]. injection Hs as <-.
    change (exec (set_timers rest;; start o) w)
      with (exec (start o) (exec (set_timers rest) w)).
    rewrite start_process.
    by destruct (is_running (exec (set_timers rest) w)).
  - simpl in Hs. destruct (procs w !! pid) as [p|] eqn:Hp; [|done].
    simpl in Hs. destruct (phase p); try done. injection Hs as <-.
    unfold exec. by rewrite (child_exited_eq pid crashed w p).
  - by apply step_Launch_confirmed in Hs as (p & _ & _ & ->).
  - by apply step_Launch_refused in Hs as (p & _ & _ & ->).
Qed.

Lemma step_temperature (a : Action) (w w' : World) :
  step a w = Some w' →
  _temperature w' = _temperature w ∨
  ∃ kelvin, _temperature w' = clamp kelvin 2000 6000.
Proof.
  intros Hs. destruct a as [o|o|k o|o|pid crashed|pid|pid].
  - injection Hs as <-. left. apply start_temperature.
  - injection Hs as <-. left. by destruct (stop_frame o w) as (_ & -> & _).
  - injection Hs as <-. right. exists k. apply set_temperature_temperature.
  - simpl in Hs. destruct (timers w) as [|d rest]; [done|]. injection Hs as <-.
    change (exec (set_timers rest;; start o) w)
      with (exec (start o) (exec (set_timers rest) w)).
    left. by rewrite start_temperature.
  - simpl in Hs. destruct (procs w !! pid) as [p|] eqn:Hp; [|done].
    simpl in Hs. destruct (phase p); try done. injection Hs as <-.
    left. unfold exec. by rewrite (child_exited_eq pid crashed w p).
  - left. by apply step_Launch_confirmed in Hs as (p & _ & _ & ->).
  - left. by apply step_Launch_refused in Hs as (p & _ & _ & ->).
Qed.

(** A timer that fires on a controller whose handle names a process that
    is not running launches the daemon with the current temperature. *)
Lemma timer_restarts (w : World) (pid : nat) (q : QProcess) (d : Z)
    (rest : list Z) :
  process w = Some pid → procs w !! pid = Some q → phase q ≠ Alive →
  timers w = d :: rest →
  ∃ w', step (Timer_fires Started) w = Some w' ∧
        running_with (_temperature w) w' ∧
        trace w' = trace w ++
                   start_events Started (length (procs w)) (_temperature w).
Proof.
  intros Hh Hq Hph Ht.
  assert (is_running (exec (set_timers rest) w) = false) as Hr.
  { unfold is_running, exec. simpl. rewrite Hh, Hq.
    apply bool_decide_eq_false. by rewrite state_Running. }
  exists (exec (start Started) (exec (set_timers rest) w)).
  split; [by apply (step_Timer_fires Started w d rest)|].
  unfold exec at 1 3. rewrite start_not_running by done.
  cbn [snd]. split; [|done].
  exists (length (procs w)), (launched Started (_temperature w)).
  repeat split. apply lookup_snoc_last.
Qed.

(** ** Notifications of the events of each method *)

Lemma emissions_app (tr1 tr2 : list Event) :
  emissions (tr1 ++ tr2) = emissions tr1 ++ emissions tr2.
Proof. apply omap_app. Qed.

Lemma notifications_app (pid : nat) (tr1 tr2 : list Event) :
  notifications pid (tr1 ++ tr2) = notifications pid tr1 ++ notifications pid tr2.
Proof. apply omap_app. Qed.

Lemma emissions_silent (evs : list Event) :
  Forall silent evs → emissions evs = [].
Proof.
  induction 1 as [|e evs He _ IH]; [done|].
  destruct e; simpl in *; done.
Qed.

Lemma notifications_silent (pid : nat) (evs : list Event) :
  Forall silent evs → notifications pid evs = [].
Proof.
  induction 1 as [|e evs He _ IH]; [done|].
  destruct e; simpl in *; done.
Qed.

Lemma emissions_start_events (o : StartOutcome) (pid : nat) (t : Z) :
  emissions (start_events o pid t) = if launch_confirmed o then [true] else [].
Proof. by destruct o. Qed.

Lemma notifications_start_events (o : StartOutcome) (pid q : nat) (t : Z) :
  notifications q (start_events o pid t) =
    if decide (pid = q) then (if launch_confirmed o then [true] else []) else [].
Proof.
  destruct o; unfold notifications; simpl; repeat case_decide; done.
Qed.

Lemma emissions_exit_events (p : QProcess) (pid : nat) (crashed : bool) :
  finished_connected p = true →
  emissions (exit_events p pid crashed) = [false].
Proof.
  intros Hc. unfold exit_events. rewrite Hc.
  by destruct (crashed && errorOccurred_connected p).
Qed.

Lemma notifications_exit_events (p : QProcess) (pid q : nat) (crashed : bool) :
  finished_connected p = true →
  notifications q (exit_events p pid crashed) =
    if decide (pid = q) then [false] else [].
Proof.
  intros Hc. unfold exit_events, notifications. rewrite Hc.
  destruct (crashed && errorOccurred_connected p); simpl;
    repeat case_decide; done.
Qed.

Lemma stop_events_no_Terminate (p : QProcess) (pid q : nat) (o : FinishOutcome) :
  Terminate q ∉ stop_events p pid o.
Proof.
  unfold stop_events, exit_events. intros Hin%list_elem_of_In.
  destruct o as [crashed|];
    [destruct (crashed && errorOccurred_connected p),
       (finished_connected p)|];
    simpl in Hin; intuition discriminate.
Qed.

(** Whatever the world, [stop] records no request for termination. *)
Lemma stop_never_terminates (o : FinishOutcome) (w : World) :
  ∃ evs, trace (exec (stop o) w) = trace w ++ evs ∧
         ∀ q, Terminate q ∉ evs.
Proof.
  unfold exec. destruct (is_running w) eqn:Hr.
  - apply is_running_true in Hr as (pid & p & Hh & Hp & Hph).
    rewrite (stop_running o w pid p) by done. simpl.
    eexists. split; [done|]. intros q. apply stop_events_no_Terminate.
  - rewrite stop_not_running by done. simpl.
    exists []. split; [by rewrite app_nil_r|].
    intros q Hin. by apply elem_of_nil in Hin.
Qed.

(** ** [Core] holds in every reachable world *)

Lemma Core_init (store : gmap string Z) : Core (init store).
Proof. by split. Qed.

Lemma Core_same (w w' : World) :
  Core w → process w' = process w → procs w' = procs w → Core w'.
Proof. intros [H1 H2 H3] Hh Hl. split; rewrite ?Hh, ?Hl; done. Qed.

Lemma Core_set_phase (w w' : World) (pid : nat) (p : QProcess) (ph : Phase) :
  Core w → procs w !! pid = Some p → process w' = process w →
  procs w' = <[pid := set_phase ph p]> (procs w) → Core w'.
Proof.
  intros [H1 H2 H3] Hp Hh Hl.
  pose proof (lookup_lt_Some _ _ _ Hp) as Hlt.
  split; rewrite ?Hh, ?Hl, ?length_insert; [done| |].
  - intros Hnone. rewrite (H2 Hnone) in Hp. done.
  - intros i q Hq. destruct (decide (i = pid)) as [->|Hne].
    + rewrite list_lookup_insert_eq in Hq by done. simplify_eq. simpl. eauto.
    + rewrite list_lookup_insert_ne in Hq by done. eauto.
Qed.

Lemma Core_launch (w w' : World) (o : StartOutcome) (t : Z) :
  Core w → process w' = Some (length (procs w)) →
  procs w' = procs w ++ [launched o t] → Core w'.
Proof.
  intros [H1 H2 H3] Hh Hl. split; rewrite ?Hh, ?Hl.
  - intros pid [= <-]. rewrite length_app. simpl. lia.
  - done.
  - intros i p [[Hi Hp]|[-> <-]]%lookup_snoc_Some; [eauto|done].
Qed.

Lemma Core_start (o : StartOutcome) (w : World) : Core w → Core (exec (start o) w).
Proof.
  intros HC. unfold exec. destruct (is_running w) eqn:Hr.
  - by rewrite start_running.
  - rewrite start_not_running by done. simpl.
    by eapply (Core_launch w _ o (_temperature w)).
Qed.

Lemma Core_stop (o : FinishOutcome) (w : World) : Core w → Core (exec (stop o) w).
Proof.
  intros HC. unfold exec. destruct (is_running w) eqn:Hr.
  - apply is_running_true in Hr as (pid & p & Hh & Hp & Hph).
    rewrite (stop_running o w pid p) by done. simpl.
    destruct o as [crashed|].
    + by eapply (Core_set_phase w _ pid p Gone).
    + by eapply (Core_same w).
  - by rewrite stop_not_running.
Qed.

Lemma Core_set_temperature (kelvin : Z) (o : FinishOutcome) (w : World) :
  Core w → Core (exec (set_temperature kelvin o) w).
Proof.
  intros HC. unfold exec. rewrite set_temperature_eq.
  assert (Core (stored kelvin w)) as HC1 by by eapply (Core_same w).
  destruct (is_running w); simpl; [|done].
  rewrite _restart_eq. simpl.
  eapply (Core_same (exec (stop o) (stored kelvin w))); [|done..].
  by apply Core_stop.
Qed.

Lemma Core_step (a : Action) (w w' : World) :
  Core w → step a w = Some w' → Core w'.
Proof.
  intros HC Hs. destruct a as [o|o|k o|o|pid crashed|pid|pid].
  - injection Hs as <-. by apply Core_start.
  - injection Hs as <-. by apply Core_stop.
  - injection Hs as <-. by apply Core_set_temperature.
  - simpl in Hs. destruct (timers w) as [|d rest] eqn:Ht; [done|].
    injection Hs as <-.
    change (exec (set_timers rest;; start o) w)
      with (exec (start o) (exec (set_timers rest) w)).
    apply Core_start. by eapply (Core_same w).
  - simpl in Hs. destruct (procs w !! pid) as [p|] eqn:Hp; [|done].
    simpl in Hs. destruct (phase p) eqn:Hph; try done.
    injection Hs as <-. unfold exec.
    rewrite (child_exited_eq pid crashed w p) by done. simpl.
    by eapply (Core_set_phase w _ pid p Gone).
  - apply step_Launch_confirmed in Hs as (p & Hp & _ & ->).
    by eapply (Core_set_phase w _ pid p Alive).
  - apply step_Launch_refused in Hs as (p & Hp & _ & ->).
    by eapply (Core_set_phase w _ pid p Failed).
Qed.

Theorem reachable_Core (w : World) : reachable w → Core w.
Proof.
  induction 1 as [store|w a w' _ IH Hs]; [apply Core_init|].
  by eapply Core_step.
Qed.

(** ** [Inv] holds as long as no wait for a launch has run out *)

Lemma Inv_init (store : gmap string Z) : Inv (init store).
Proof.
  split; simpl; try done.
  by exists 0.
Qed.

Lemma is_running_false_no_alive (w : World) :
  Inv w → is_running w = false →
  ∀ i p, procs w !! i = Some p → phase p ≠ Alive.
Proof.
  intros HI Hr i p Hp Hph.
  assert (is_running w = true); [|congruence].
  apply is_running_true. exists i, p. eauto using inv_alive.
Qed.

Lemma Inv_silent (w w' : World) (evs : list Event) :
  Inv w → process w' = process w → procs w' = procs w →
  trace w' = trace w ++ evs → Forall silent evs → Inv w'.
Proof.
  intros [H1 H2 H3 H4 H5 H6 [n H7] H8] Hh Hl Ht Hs.
  assert (is_running w' = is_running w) as Hr by by apply is_running_frame.
  split; rewrite ?Hh, ?Hl, ?Ht, ?Hr; try done.
  - intros i p Hp. rewrite notifications_app, (notifications_silent _ evs) by done.
    rewrite app_nil_r. eauto.
  - intros i Hi. rewrite notifications_app, (notifications_silent _ evs) by done.
    rewrite app_nil_r. eauto.
  - exists n. rewrite emissions_app, (emissions_silent evs) by done.
    by rewrite app_nil_r.
Qed.

Lemma Inv_launch (w w' : World) (o : StartOutcome) (t : Z) :
  Inv w → is_running w = false → o ≠ StartTimedOut →
  process w' = Some (length (procs w)) →
  procs w' = procs w ++ [launched o t] →
  trace w' = trace w ++ start_events o (length (procs w)) t →
  Inv w'.
Proof.
  intros HI Hr Ho Hh Hl Ht.
  pose proof (is_running_false_no_alive w HI Hr) as Hdead.
  destruct HI as [H1 H2 H3 H4 H5 H6 [n H7] H8].
  split; rewrite ?Hh, ?Hl, ?Ht.
  - intros pid [= <-]. rewrite length_app. simpl. lia.
  - done.
  - intros i p [[Hi Hp]|[-> <-]]%lookup_snoc_Some Hph; [|done].
    by destruct (Hdead i p).
  - intros i p [[Hi Hp]|[-> <-]]%lookup_snoc_Some; [eauto|done].
  - intros i p [[Hi Hp]|[-> <-]]%lookup_snoc_Some;
      rewrite notifications_app, notifications_start_events.
    + rewrite decide_False by lia. rewrite app_nil_r. eauto.
    + rewrite decide_True by done. rewrite H6 by done. by destruct o.
  - intros i Hi. rewrite length_app in Hi. simpl in Hi.
    rewrite notifications_app, notifications_start_events.
    rewrite decide_False by lia. rewrite app_nil_r. apply H6. lia.
  - exists n. rewrite emissions_app, emissions_start_events, H7, Hr.
    rewrite app_nil_r.
    replace (is_running w') with (launch_confirmed o); [done|].
    unfold is_running. rewrite Hh, Hl, lookup_snoc_last. by destruct o.
  - intros i p [[Hi Hp]|[-> <-]]%lookup_snoc_Some; [eauto|by destruct o].
Qed.

Lemma Inv_exit (w w' : World) (pid : nat) (p : QProcess) (crashed : bool) :
  Inv w → procs w !! pid = Some p → phase p = Alive →
  process w' = process w →
  procs w' = <[pid := set_phase Gone p]> (procs w) →
  trace w' = trace w ++ exit_events p pid crashed →
  Inv w'.
Proof.
  intros [H1 H2 H3 H4 H5 H6 [n H7] H8] Hp Hph Hh Hl Ht.
  pose proof (lookup_lt_Some _ _ _ Hp) as Hlt.
  pose proof (H3 _ _ Hp Hph) as Hcur.
  destruct (H4 _ _ Hp) as [Hfc Hec].
  split; rewrite ?Hh, ?Hl, ?Ht, ?length_insert.
  - done.
  - intros Hnone. congruence.
  - intros i q Hq Hqph. destruct (decide (i = pid)) as [->|Hne].
    + rewrite list_lookup_insert_eq in Hq by done. by simplify_eq.
    + rewrite list_lookup_insert_ne in Hq by done. eauto.
  - intros i q Hq. destruct (decide (i = pid)) as [->|Hne].
    + rewrite list_lookup_insert_eq in Hq by done. by simplify_eq.
    + rewrite list_lookup_insert_ne in Hq by done. eauto.
  - intros i q Hq.
    rewrite notifications_app, notifications_exit_events by done.
    destruct (decide (i = pid)) as [->|Hne].
    + rewrite list_lookup_insert_eq in Hq by done. simplify_eq. simpl.
      rewrite decide_True by done. rewrite (H5 _ _ Hp), Hph. done.
    + rewrite list_lookup_insert_ne in Hq by done.
      rewrite decide_False by done. rewrite app_nil_r. eauto.
  - intros i Hi.
    rewrite notifications_app, notifications_exit_events by done.
    rewrite decide_False by lia. rewrite app_nil_r. eauto.
  - exists (S n). rewrite emissions_app, emissions_exit_events, H7 by done.
    assert (is_running w = true) as ->
      by (apply is_running_true; eauto).
    assert (is_running w' = false) as ->.
    { unfold is_running. rewrite Hh, Hcur, Hl.
      by rewrite list_lookup_insert_eq by done. }
    rewrite app_nil_r, <- app_assoc. apply cycles_snoc.
  - intros i q Hq. destruct (decide (i = pid)) as [->|Hne].
    + rewrite list_lookup_insert_eq in Hq by done. by simplify_eq.
    + rewrite list_lookup_insert_ne in Hq by done. eauto.
Qed.

Lemma Inv_start (o : StartOutcome) (w : World) :
  Inv w → o ≠ StartTimedOut → Inv (exec (start o) w).
Proof.
  intros HI Ho. unfold exec. destruct (is_running w) eqn:Hr.
  - by rewrite start_running.
  - rewrite start_not_running by done. simpl.
    by eapply (Inv_launch w _ o (_temperature w)).
Qed.

Lemma Inv_child_exited (pid : nat) (crashed : bool) (w : World) (p : QProcess) :
  Inv w → procs w !! pid = Some p → phase p = Alive →
  Inv (exec (child_exited pid crashed) w).
Proof.
  intros HI Hp Hph. unfold exec.
  rewrite (child_exited_eq pid crashed w p) by done. simpl.
  by eapply (Inv_exit w _ pid p crashed).
Qed.

Lemma Inv_stop (o : FinishOutcome) (w : World) : Inv w → Inv (exec (stop o) w).
Proof.
  intros HI. unfold exec. destruct (is_running w) eqn:Hr.
  - apply is_running_true in Hr as (pid & p & Hh & Hp & Hph).
    rewrite (stop_running o w pid p) by done. simpl.
    destruct o as [crashed|].
    + set (w1 := {| process := process w; _temperature := _temperature w;
                    procs := procs w; SETTINGS := SETTINGS w;
                    timers := timers w;
                    trace := trace w ++ [ Log INFO "Stopping hyprsunset";
                                          WaitForFinished pid 1000 ] |}).
      assert (Inv w1) as HI1.
      { eapply (Inv_silent w w1); [done..|]. by repeat constructor. }
      eapply (Inv_exit w1 _ pid p crashed); try done.
      simpl. unfold stop_events. by rewrite <- app_assoc.
    + eapply (Inv_silent w); [done..|]. by repeat constructor.
  - by rewrite stop_not_running.
Qed.

Lemma Inv_stored (kelvin : Z) (w : World) : Inv w → Inv (stored kelvin w).
Proof.
  intros HI. eapply (Inv_silent w); [done..|]. by repeat constructor.
Qed.

Lemma Inv_set_temperature (kelvin : Z) (o : FinishOutcome) (w : World) :
  Inv w → Inv (exec (set_temperature kelvin o) w).
Proof.
  intros HI. unfold exec. rewrite set_temperature_eq.
  destruct (is_running w); simpl; [|by apply Inv_stored].
  rewrite _restart_eq. simpl.
  eapply (Inv_silent (exec (stop o) (stored kelvin w))); [|done..|].
  - by apply Inv_stop, Inv_stored.
  - by repeat constructor.
Qed.

Lemma Inv_timer (w : World) (rest : list Z) :
  Inv w → Inv (exec (set_timers rest) w).
Proof.
  intros HI. eapply (Inv_silent w _ []); [done..| |done].
  simpl. by rewrite app_nil_r.
Qed.

Lemma prompt_start (o : StartOutcome) :
  prompt (Call_start o) = true → o ≠ StartTimedOut.
Proof. by intros H ->. Qed.

Lemma prompt_timer (o : StartOutcome) :
  prompt (Timer_fires o) = true → o ≠ StartTimedOut.
Proof. by intros H ->. Qed.

(** With no object left in the state [Starting], the event loop has no
    launch to confirm or to refuse. *)
Lemma Inv_no_late (pid : nat) (w w' : World) :
  Inv w →
  step (Launch_confirmed pid) w = Some w' ∨
  step (Launch_refused pid) w = Some w' → False.
Proof.
  intros HI [Hs|Hs].
  - apply step_Launch_confirmed in Hs as (p & Hp & Hph & _).
    by apply (inv_answered w HI pid p).
  - apply step_Launch_refused in Hs as (p & Hp & Hph & _).
    by apply (inv_answered w HI pid p).
Qed.

Lemma Inv_step (a : Action) (w w' : World) :
  Inv w → prompt a = true → step a w = Some w' → Inv w'.
Proof.
  intros HI Ha Hs. destruct a as [o|o|k o|o|pid crashed|pid|pid].
  - injection Hs as <-. by apply Inv_start, prompt_start.
  - injection Hs as <-. by apply Inv_stop.
  - injection Hs as <-. by apply Inv_set_temperature.
  - simpl in Hs. destruct (timers w) as [|d rest] eqn:Ht; [done|].
    injection Hs as <-.
    change (exec (set_timers rest;; start o) w)
      with (exec (start o) (exec (set_timers rest) w)).
    apply Inv_start; [by apply Inv_timer|by apply prompt_timer].
  - simpl in Hs. destruct (procs w !! pid) as [p|] eqn:Hp; [|done].
    simpl in Hs. destruct (phase p) eqn:Hph; try done.
    injection Hs as <-. by eapply Inv_child_exited.
  - destruct (Inv_no_late pid w w' HI). by left.
  - destruct (Inv_no_late pid w w' HI). by right.
Qed.

Theorem reachable_prompt_Inv (w : World) : reachable_prompt w → Inv w.
Proof.
  induction 1 as [store|w a w' _ IH Ha Hs]; [apply Inv_init|].
  by eapply Inv_step.
Qed.

(** ** The sample worlds are reachable *)

Lemma running_world_reachable : reachable running_world.
Proof.
  apply (reachable_step (init ∅) (Call_start Started));
    [apply reachable_init|].
  vm_compute. reflexivity.
Qed.

Lemma running_world_prompt : reachable_prompt running_world.
Proof.
  apply (reachable_prompt_step (init ∅) (Call_start Started));
    [apply reachable_prompt_init|done|].
  vm_compute. reflexivity.
Qed.

Lemma restarted_world_prompt : reachable_prompt restarted_world.
Proof.
  apply (run_reachable_prompt restart_run (init ∅));
    [apply reachable_prompt_init|done|].
  vm_compute. reflexivity.
Qed.

(** ** C1: set_temperature stores the clamped value *)

(** C1: for every integer [kelvin], [set_temperature kelvin] leaves
    [clamp kelvin 2000 6000] in the controller's temperature and in the
    settings store under the key "temperature"; the write to the store is
    the first thing the call does, before any process action. *)
Theorem C1_set_temperature_stores_clamp
    (kelvin : Z) (o : FinishOutcome) (w : World) :
  let w' := exec (set_temperature kelvin o) w in
  temperature w' = clamp kelvin 2000 6000 ∧
  SETTINGS w' !! "temperature" = Some (clamp kelvin 2000 6000) ∧
  ∃ evs, trace w' =
         trace w ++ SetValue "temperature" (clamp kelvin 2000 6000) :: evs.
Proof. apply set_temperature_stores. Qed.

(** ** C2: one daemon at most *)

(** C2, on the code: [start] tests for a process in the Running state
    only, and it leaves a launch that was not confirmed within its wait
    as it is, neither killed nor forgotten by Qt.  A first start whose
    wait runs out leaves object 0 in the state Starting; a second start
    goes past the test and launches object 1, which is confirmed; when
    the first launch is then confirmed as well, two daemons are running,
    and the handle names the second only. *)
Theorem C2_two_daemons_after_late_launch :
  (λ w, state <$> procs w)
    <$> run [ Call_start StartTimedOut; Call_start Started ] (init ∅)
    = Some [Starting; Running] ∧
  run overlap_run (init ∅) = Some overlap_world ∧
  state <$> procs overlap_world = [Running; Running] ∧
  process overlap_world = Some 1 ∧
  emissions (trace overlap_world) = [true] ∧
  ¬ at_most_one_running overlap_world.
Proof.
  split; [vm_compute; reflexivity|]. split; [vm_compute; reflexivity|].
  split; [vm_compute; reflexivity|]. split; [vm_compute; reflexivity|].
  split; [vm_compute; reflexivity|].
  intros [Hcur _].
  assert (process overlap_world = Some 0) as Hh.
  { apply (Hcur 0 (launched Started 4000)); vm_compute; reflexivity. }
  vm_compute in Hh. discriminate.
Qed.

(** ** C3: two notifications per lifecycle *)

(** C3, on the code: [state_changed(True)] is emitted by [start] when its
    own wait ends with the launch confirmed, and by nothing else; the
    false is emitted by [_on_finished], which is connected to every
    process object.  A daemon whose launch is confirmed after the wait
    has run out goes through its whole life, from launch to exit, with
    one notification only: the false. *)
Theorem C3_lone_false_after_late_launch :
  run late_run (init ∅) = Some late_world ∧
  phase <$> procs late_world = [Gone] ∧
  notifications 0 (trace late_world) = [false] ∧
  emissions (trace late_world) = [false] ∧
  ¬ paired_notifications late_world.
Proof.
  split; [vm_compute; reflexivity|]. split; [vm_compute; reflexivity|].
  split; [vm_compute; reflexivity|]. split; [vm_compute; reflexivity|].
  intros [Hn _].
  specialize (Hn 0 (set_phase Gone (launched StartTimedOut 4000))).
  assert (notifications 0 (trace late_world) = [true; false]) as H
    by (apply Hn; vm_compute; reflexivity).
  vm_compute in H. discriminate.
Qed.

(** ** C4: start on a running controller *)

(** C4: when [start] has returned true, a second [start] right after it
    returns true and changes nothing: no process object is created, no
    event recorded, the world is the same. *)
Theorem C4_start_twice (o o' : StartOutcome) (w w1 : World) :
  start o w = (true, w1) → start o' w1 = (true, w1).
Proof.
  intros H%start_true_running. by apply start_running.
Qed.

Lemma C4_start_twice_witness :
  start SpawnFailed (exec (start Started) (init ∅))
  = (true, exec (start Started) (init ∅)).
Proof.
  apply (C4_start_twice Started SpawnFailed (init ∅)).
  vm_compute. reflexivity.
Defined.

(** ** C5: a start that fails *)

(** C5: on a controller that is not running, a [start] whose launch fails
    or is not confirmed within the wait returns false, logs the error
    "Failed to start hyprsunset", leaves the controller not running and
    emits no state_changed. *)
Theorem C5_start_failure (o : StartOutcome) (w : World) :
  is_running w = false → o = SpawnFailed ∨ o = StartTimedOut →
  failed_start o w.
Proof.
  intros Hr Ho. unfold failed_start, result, exec.
  rewrite start_not_running by done. simpl.
  split; [by destruct Ho as [->| ->]|]. split.
  - unfold is_running. simpl. rewrite lookup_snoc_last.
    by destruct Ho as [->| ->].
  - exists (start_events o (length (procs w)) (_temperature w)).
    split; [done|]. rewrite emissions_start_events.
    split; [|by destruct Ho as [->| ->]].
    unfold start_events. destruct Ho as [->| ->]; repeat constructor.
Qed.

Lemma C5_start_failure_witness : failed_start StartTimedOut (init ∅).
Proof.
  apply (C5_start_failure StartTimedOut (init ∅)).
  - reflexivity.
  - right. reflexivity.
Defined.

(** ** C6: stop *)

(** C6, on the code: with the daemon running, [stop] logs, waits 1000 ms
    for the child to exit and kills it if the wait ran out; it kills only
    then.  It asks for no termination before it waits: the first request
    the child gets is the kill. *)
Theorem C6_stop_waits_then_kills :
  trace (exec (stop FinishTimedOut) running_world)
    = trace running_world ++
      [ Log INFO "Stopping hyprsunset"; WaitForFinished 0 1000; Kill 0 ] ∧
  trace (exec (stop (Finished false)) running_world)
    = trace running_world ++
      [ Log INFO "Stopping hyprsunset"; WaitForFinished 0 1000;
        Log INFO "hyprsunset terminated"; StateChanged false 0 ] ∧
  ∀ o q, Terminate q ∉ trace (exec (stop o) running_world).
Proof.
  split; [vm_compute; reflexivity|]. split; [vm_compute; reflexivity|].
  intros o q.
  destruct (stop_never_terminates o running_world) as (evs & -> & Hevs).
  rewrite elem_of_app. intros [Hin|Hin]; [|by apply (Hevs q)].
  apply list_elem_of_In in Hin. vm_compute in Hin. intuition discriminate.
Qed.

(** ** C7: change of temperature while running *)

(** C7, as stated, fails in two runs from the running controller.  In the
    first the wait in stop runs out, the daemon is killed, and the timer
    fires before the exit is reported: start finds the controller running
    and does nothing, then the exit arrives.  In the second the relaunch
    fails.  Both end with no timer pending, nothing running and a false
    as the last emission. *)
Lemma C7_counterexample :
  (∃ w', run [ Call_set_temperature 3000 FinishTimedOut;
               Timer_fires Started; Process_exits 0 true ] running_world
           = Some w' ∧
         is_running w' = false ∧ timers w' = [] ∧
         arguments <$> procs w' = [["-t"; "4000"]] ∧
         emissions (trace w') = [true; false]) ∧
  (∃ w', run [ Call_set_temperature 3000 (Finished false);
               Timer_fires SpawnFailed ] running_world
           = Some w' ∧
         is_running w' = false ∧ timers w' = [] ∧
         emissions (trace w') = [true; false]) ∧
  ¬ restart_always_takes_effect.
Proof.
  split; [|split].
  - eexists. split; [vm_compute; reflexivity|].
    repeat split; vm_compute; reflexivity.
  - eexists. split; [vm_compute; reflexivity|].
    repeat split; vm_compute; reflexivity.
  - intros H.
    destruct (H running_world 3000%Z (Finished false) [] SpawnFailed
                (default (init ∅)
                   (run [ Call_set_temperature 3000 (Finished false);
                          Timer_fires SpawnFailed ] running_world)))
      as (pid & p & Hh & Hp & Hst & _).
    + apply running_world_reachable.
    + vm_compute. reflexivity.
    + constructor.
    + vm_compute. reflexivity.
    + vm_compute in Hh. injection Hh as <-.
      vm_compute in Hp. injection Hp as <-. discriminate.
Qed.

(** C7, amended: [set_temperature] on a running controller stores the
    clamped value, runs [stop] and schedules [start] 50 ms later.  If the
    exit of the old daemon has been reported by the time that timer fires
    and the launch is then confirmed, the daemon runs with [-t] and the
    new clamped temperature, and the emissions since the call are a false
    followed by a true.  On a controller that is not running the call
    stores the value and touches no process and no timer. *)
Theorem C7_restart_when_running
    (kelvin : Z) (o : FinishOutcome) (crashed : bool) (w : World) :
  reachable w → restart_effect kelvin o crashed w.
Proof.
  intros HC%reachable_Core. unfold restart_effect.
  unfold exec. rewrite set_temperature_eq, <- max_min_is_clamp.
  destruct (is_running w) eqn:Hr; [|done].
  apply is_running_true in Hr as (pid & p & Hh & Hp & Hph).
  destruct (core_connected w HC pid p Hp) as [Hfc Hec].
  pose proof (lookup_lt_Some _ _ _ Hp) as Hlt.
  exists pid, p. split; [done|]. split; [done|].
  rewrite _restart_eq. unfold exec.
  rewrite (stop_running o (stored kelvin w) pid p) by done.
  cbn [fst snd process _temperature procs SETTINGS timers trace stored].
  split; [by rewrite <- !app_assoc|]. split; [done|].
  destruct (snoc_is_cons (timers w) 50%Z) as (d & rest & Htm).
  rewrite Htm. set (c := Z.max MIN_TEMP (Z.min MAX_TEMP kelvin)).
  destruct o as [crashed'|]; cbn [exit_report app].
  - match goal with |- ∃ w3, run _ ?w1 = _ ∧ _ =>
      destruct (timer_restarts w1 pid (set_phase Gone p) d rest)
        as (w3 & Hs & Hrun & Htr)
    end; [done| by apply list_lookup_insert_eq |done|done|].
    exists w3. split; [by rewrite (run_cons _ _ _ _ Hs)|].
    split; [done|]. rewrite Htr. cbn [trace _temperature procs].
    eexists. split; [by rewrite <- !app_assoc|].
    rewrite !emissions_app, emissions_start_events. unfold stop_events.
    rewrite emissions_app, emissions_exit_events by done. done.
  - match goal with |- ∃ w3, run _ ?w1 = _ ∧ _ =>
      pose proof (step_Process_exits pid crashed w1 p Hp Hph) as Hex;
      unfold exec in Hex;
      rewrite (child_exited_eq pid crashed w1 p Hp) in Hex
    end.
    cbn [snd process _temperature procs SETTINGS timers trace] in Hex.
    match type of Hex with _ = Some ?w2 =>
      destruct (timer_restarts w2 pid (set_phase Gone p) d rest)
        as (w3 & Hs & Hrun & Htr)
    end; [done| by apply list_lookup_insert_eq |done|done|].
    exists w3. split.
    { by rewrite (run_cons _ _ _ _ Hex), (run_cons _ _ _ _ Hs). }
    split; [done|]. rewrite Htr. cbn [trace _temperature procs].
    eexists. split; [by rewrite <- !app_assoc|].
    rewrite !emissions_app, emissions_start_events.
    rewrite emissions_exit_events by done. done.
Qed.

Lemma C7_restart_when_running_witness :
  restart_effect 3000 FinishTimedOut true running_world.
Proof.
  apply (C7_restart_when_running 3000 FinishTimedOut true running_world).
  apply (reachable_step (init ∅) (Call_start Started));
    [apply reachable_init|].
  vm_compute. reflexivity.
Defined.

(** ** C8: the handle *)

(** C8, as stated, fails: after a start and a completed stop the
    controller is stopped and its handle still names process 0. *)
Lemma C8_counterexample :
  run [ Call_start Started; Call_stop (Finished false) ] (init ∅)
    = Some stopped_world ∧
  is_running stopped_world = false ∧
  process stopped_world = Some 0 ∧
  ¬ handle_None_when_stopped.
Proof.
  assert (run [ Call_start Started; Call_stop (Finished false) ] (init ∅)
          = Some stopped_world) as Hrun by (vm_compute; reflexivity).
  assert (is_running stopped_world = false) as Hr
    by (vm_compute; reflexivity).
  assert (process stopped_world = Some 0) as Hh
    by (vm_compute; reflexivity).
  split; [exact Hrun|]. split; [exact Hr|]. split; [exact Hh|].
  intros H.
  assert (process stopped_world = None) as Hnone; [|congruence].
  apply H; [|exact Hr].
  exact (run_reachable _ (init ∅) _ (reachable_init ∅) Hrun).
Qed.

(** C8, amended: the handle is None exactly as long as no start has been
    attempted; every start on a controller that is not running stores a
    newly created process object in it; no step (stop, exit of the
    process after a stop, a crash or a kill, change of temperature, timer)
    resets it to None; the controller is stopped when the handle is None
    or names a process object that is not in the Running state. *)
Theorem C8_handle_is_kept (w : World) :
  reachable w → handle_lifetime w.
Proof.
  intros HC%reachable_Core. split; [|split; [|split]].
  - split; [by apply core_none|].
    intros Hl. destruct (process w) as [pid|] eqn:Hh; [|done].
    apply (core_handle w HC) in Hh. by rewrite Hl in Hh.
  - intros o Hr. split.
    + by rewrite start_process, Hr.
    + unfold exec. rewrite start_not_running by done. simpl.
      rewrite length_app. simpl. lia.
  - intros a w'. apply step_process_kept.
  - split.
    + intros Hr. destruct (process w) as [pid|] eqn:Hh; [|by left].
      right. pose proof (core_handle w HC pid Hh) as Hlen.
      destruct (procs w !! pid) as [p|] eqn:Hp.
      * exists pid, p. repeat split; [done|].
        intros Hst. unfold is_running in Hr. rewrite Hh, Hp in Hr.
        by apply bool_decide_eq_false in Hr.
      * apply lookup_ge_None in Hp. lia.
    + intros [Hnone|(pid & p & Hh & Hp & Hst)]; unfold is_running.
      * by rewrite Hnone.
      * rewrite Hh, Hp. by apply bool_decide_eq_false.
Qed.

Lemma C8_handle_is_kept_witness : handle_lifetime stopped_world.
Proof.
  apply (C8_handle_is_kept stopped_world).
  apply (run_reachable [ Call_start Started; Call_stop (Finished false) ]
           (init ∅)); [apply reachable_init|].
  vm_compute. reflexivity.
Defined.

(** ** C9: the range of the temperature *)

(** C9, on the code: the controller starts with the stored value as it
    is.  With 7500 in the store the temperature is 7500, outside
    [2000, 6000], and that is what the daemon is launched with. *)
Theorem C9_init_does_not_clamp :
  temperature (init edited_store) = 7500%Z ∧
  ¬ (2000 ≤ temperature (init edited_store) ≤ 6000)%Z ∧
  arguments <$> procs (exec (start Started) (init edited_store)) !! 0
    = Some ["-t"; "7500"].
Proof.
  split; [vm_compute; reflexivity|]. split; [|vm_compute; reflexivity].
  replace (temperature (init edited_store)) with 7500%Z
    by (vm_compute; reflexivity).
  lia.
Qed.

(** What does hold: when the store has no temperature, or one within the
    range, the temperature is within the range in every world of every
    run. *)
Lemma temperature_in_range (store : gmap string Z) (acts : list Action)
    (w : World) :
  (2000 ≤ DEFAULT_TEMP store ≤ 6000)%Z →
  run acts (init store) = Some w →
  (2000 ≤ temperature w ≤ 6000)%Z.
Proof.
  intros Hd. change (DEFAULT_TEMP store) with (temperature (init store)) in Hd.
  revert Hd. generalize (init store) as w0. unfold temperature.
  induction acts as [|a acts IH]; intros w0 Hd; simpl.
  - by intros [= <-].
  - destruct (step a w0) as [w1|] eqn:Hs; [|done].
    apply IH. destruct (step_temperature a w0 w1 Hs) as [->|[k ->]]; [done|].
    apply clamp_in_range.
Qed.

Lemma DEFAULT_TEMP_absent (store : gmap string Z) :
  store !! "temperature" = None → DEFAULT_TEMP store = 4000%Z.
Proof. intros H. unfold DEFAULT_TEMP, QSettings_value. by rewrite H. Qed.

(** ** C10: start after a failed start *)

(** C10: after a [start] that returned false the controller is not
    running although its handle names the process object of the failed
    attempt; the next [start] goes past the running test, creates a new
    process object, makes it the handle and launches it, with the result
    and the events of a start on the same world with the handle None. *)
Theorem C10_retry_after_failed_start (o o' : StartOutcome) (w w1 : World) :
  start o w = (false, w1) → retry_is_fresh_start o' w1.
Proof.
  intros Hs. destruct (is_running w) eqn:Hr.
  { rewrite start_running in Hs by done. done. }
  rewrite start_not_running in Hs by done. injection Hs as Ho <-.
  assert (is_running
            {| process := Some (length (procs w));
               _temperature := _temperature w;
               procs := procs w ++ [launched o (_temperature w)];
               SETTINGS := SETTINGS w; timers := timers w;
               trace := trace w ++
                 start_events o (length (procs w)) (_temperature w) |}
          = false) as Hr1.
  { unfold is_running. simpl. rewrite lookup_snoc_last. by destruct o. }
  split; [done|]. split.
  { eexists _, _. simpl. split; [done|]. apply lookup_snoc_last. }
  split; [by rewrite start_not_running|].
  rewrite !start_not_running; done.
Qed.

Lemma C10_retry_after_failed_start_witness :
  retry_is_fresh_start Started (exec (start SpawnFailed) (init ∅)).
Proof.
  apply (C10_retry_after_failed_start SpawnFailed Started (init ∅)).
  vm_compute. reflexivity.
Defined.

(** ** Every step is made of effects *)

Lemma step_effects (a : Action) (w w' : World) :
  step a w = Some w' →
  ∃ w1, (w1 = w ∨ ∃ d rest, timers w = d :: rest ∧
                            w1 = exec (set_timers rest) w) ∧
        effect w1 w'.
Proof.
  intros Hs. destruct a as [o|o|k o|o|pid crashed|pid|pid];
    [simpl in Hs..| |].
  - injection Hs as <-. exists w. split; [by left|].
    unfold exec. destruct (is_running w) eqn:Hr.
    + rewrite start_running by done. constructor.
    + rewrite start_not_running by done. by apply effect_launch.
  - injection Hs as <-. exists w. split; [by left|].
    unfold exec. destruct (is_running w) eqn:Hr.
    + apply is_running_true in Hr as (pid & p & Hh & Hp & Hph).
      rewrite (stop_running o w pid p) by done. by apply effect_stop.
    + rewrite stop_not_running by done. constructor.
  - injection Hs as <-. exists w. split; [by left|].
    unfold exec. rewrite set_temperature_eq.
    destruct (is_running w) eqn:Hr; [|by apply effect_store].
    apply is_running_true in Hr as (pid & p & Hh & Hp & Hph).
    rewrite _restart_eq. unfold exec.
    rewrite (stop_running o (stored k w) pid p) by done.
    by apply (effect_restart w k pid p o).
  - destruct (timers w) as [|d rest] eqn:Ht; [done|].
    injection Hs as <-.
    change (exec (set_timers rest;; start o) w)
      with (exec (start o) (exec (set_timers rest) w)).
    exists (exec (set_timers rest) w). split; [right; eauto|].
    unfold exec at 2. destruct (is_running (exec (set_timers rest) w)) eqn:Hr.
    + rewrite start_running by done. constructor.
    + rewrite start_not_running by done. by apply effect_launch.
  - destruct (procs w !! pid) as [p|] eqn:Hp; [|done]. simpl in Hs.
    destruct (phase p) eqn:Hph; try done. injection Hs as <-.
    exists w. split; [by left|].
    unfold exec. rewrite (child_exited_eq pid crashed w p) by done.
    by apply effect_exit.
  - apply step_Launch_confirmed in Hs as (p & Hp & Hph & ->).
    exists w. split; [by left|]. by apply effect_confirm.
  - apply step_Launch_refused in Hs as (p & Hp & Hph & ->).
    exists w. split; [by left|]. by apply effect_refuse.
Qed.

(** Induction over the reachable worlds, effect by effect. *)
Lemma reachable_effect_ind (P : World → Prop) :
  (∀ store, P (init store)) →
  (∀ w w', P w → effect w w' → P w') →
  ∀ w, reachable w → P w.
Proof.
  intros Hinit Heff w Hw.
  induction Hw as [store|w a w' Hw IH Hs]; [done|].
  destruct (step_effects a w w' Hs) as (w1 & H1 & H2).
  assert (effect w w1) as H1'.
  { destruct H1 as [->|(d & rest & Ht & ->)];
      [constructor|by eapply effect_timer]. }
  eapply (Heff w1 w'); [|done].
  by eapply (Heff w w1).
Qed.

(** The same over the worlds reached while no wait for a launch has run
    out, where [Inv] holds. *)
Lemma reachable_prompt_effect_ind (P : World → Prop) :
  (∀ store, P (init store)) →
  (∀ w w', Inv w → P w → effect w w' → P w') →
  ∀ w, reachable_prompt w → P w.
Proof.
  intros Hinit Heff w Hw.
  induction Hw as [store|w a w' Hw IH Ha Hs]; [done|].
  destruct (step_effects a w w' Hs) as (w1 & H1 & H2).
  pose proof (reachable_prompt_Inv w Hw) as HI.
  destruct H1 as [->|(d & rest & Ht & ->)].
  - by eapply (Heff w w').
  - eapply (Heff _ w'); [by apply Inv_timer| |done].
    eapply (Heff w); [done..|]. by eapply effect_timer.
Qed.

(** ** The second invariant holds in every reachable world *)

Lemma launch_events_app (tr1 tr2 : list Event) :
  launch_events (tr1 ++ tr2) = launch_events tr1 ++ launch_events tr2.
Proof. apply omap_app. Qed.

Lemma launch_events_start_events (o : StartOutcome) (pid : nat) (t : Z) :
  launch_events (start_events o pid t)
  = [(pid, HYPRSUNSET_BIN, ["-t"; pretty t])].
Proof. by destruct o. Qed.

Lemma launch_events_exit_events (p : QProcess) (pid : nat) (crashed : bool) :
  launch_events (exit_events p pid crashed) = [].
Proof.
  unfold exit_events.
  by destruct (crashed && errorOccurred_connected p), (finished_connected p).
Qed.

Lemma launch_events_stop_events (p : QProcess) (pid : nat) (o : FinishOutcome) :
  launch_events (stop_events p pid o) = [].
Proof.
  unfold stop_events. rewrite launch_events_app.
  destruct o; [apply launch_events_exit_events|done].
Qed.

Lemma imap_set_phase (l : list QProcess) (pid : nat) (p : QProcess) (ph : Phase) :
  l !! pid = Some p →
  imap (λ i q, (i, program q, arguments q)) (<[pid := set_phase ph p]> l)
  = imap (λ i q, (i, program q, arguments q)) l.
Proof.
  intros Hp. pose proof (lookup_lt_Some _ _ _ Hp) as Hlt.
  apply list_eq. intros i. rewrite !list_lookup_imap.
  destruct (decide (i = pid)) as [->|Hne].
  - rewrite list_lookup_insert_eq by done. by rewrite Hp.
  - by rewrite list_lookup_insert_ne.
Qed.

Lemma allowed_start_events (o : StartOutcome) (pid : nat) (t : Z) :
  Forall allowed (start_events o pid t).
Proof. destruct o; repeat constructor; eauto. Qed.

Lemma allowed_exit_events (p : QProcess) (pid : nat) (crashed : bool) :
  Forall allowed (exit_events p pid crashed).
Proof.
  unfold exit_events.
  destruct (crashed && errorOccurred_connected p), (finished_connected p);
    repeat constructor.
Qed.

Lemma allowed_stop_events (p : QProcess) (pid : nat) (o : FinishOutcome) :
  Forall allowed (stop_events p pid o).
Proof.
  unfold stop_events. apply Forall_app. split; [by repeat constructor|].
  destruct o; [apply allowed_exit_events|by repeat constructor].
Qed.

Lemma kills_follow_waits_app (prev : option Event) (tr evs : list Event) :
  kills_follow_waits prev tr = true →
  (∀ x, kills_follow_waits x evs = true) →
  kills_follow_waits prev (tr ++ evs) = true.
Proof.
  intros Htr Hevs. revert prev Htr.
  induction tr as [|e tr IH]; intros prev Htr; simpl in *; [done|].
  apply andb_true_iff in Htr as [He Htr].
  rewrite He. simpl. by apply IH.
Qed.

Lemma kills_start_events (o : StartOutcome) (pid : nat) (t : Z) (x : option Event) :
  kills_follow_waits x (start_events o pid t) = true.
Proof. by destruct o. Qed.

Lemma kills_exit_events (p : QProcess) (pid : nat) (crashed : bool)
    (x : option Event) :
  kills_follow_waits x (exit_events p pid crashed) = true.
Proof.
  unfold exit_events.
  by destruct (crashed && errorOccurred_connected p), (finished_connected p).
Qed.

Lemma kills_stop_events (p : QProcess) (pid : nat) (o : FinishOutcome)
    (x : option Event) :
  kills_follow_waits x (stop_events p pid o) = true.
Proof.
  unfold stop_events. destruct o as [crashed|]; simpl.
  - apply kills_exit_events.
  - by rewrite !bool_decide_eq_true_2.
Qed.

Lemma Inv2_init (store : gmap string Z) : Inv2 (init store).
Proof. by split. Qed.

Lemma Inv2_launch (o : StartOutcome) (w : World) : Inv2 w → Inv2 (launch_world o w).
Proof.
  intros [H1 H2 H3 H4 H5 H6]. split; simpl; try done.
  - rewrite launch_events_app, launch_events_start_events, H2, imap_app.
    simpl. by rewrite Nat.add_0_r.
  - apply Forall_app. split; [done|]. repeat constructor. eauto.
  - apply Forall_app. split; [done|]. apply allowed_start_events.
  - apply kills_follow_waits_app; [done|]. apply kills_start_events.
Qed.

Lemma Inv2_stop_world (pid : nat) (p : QProcess) (o : FinishOutcome) (w : World) :
  procs w !! pid = Some p → Inv2 w → Inv2 (stop_world pid p o w).
Proof.
  intros Hp [H1 H2 H3 H4 H5 H6]. split; simpl; try done.
  - rewrite launch_events_app, launch_events_stop_events, app_nil_r, H2.
    destruct o; [by rewrite imap_set_phase|done].
  - destruct o; [|done]. apply Forall_insert; [done|].
    exact (Forall_lookup_1 _ _ _ _ H3 Hp).
  - apply Forall_app. split; [done|]. apply allowed_stop_events.
  - apply kills_follow_waits_app; [done|]. apply kills_stop_events.
Qed.

Lemma Inv2_exit (pid : nat) (p : QProcess) (crashed : bool) (w : World) :
  procs w !! pid = Some p → Inv2 w → Inv2 (exit_world pid p crashed w).
Proof.
  intros Hp [H1 H2 H3 H4 H5 H6]. split; simpl; try done.
  - rewrite launch_events_app, launch_events_exit_events, app_nil_r, H2.
    by rewrite imap_set_phase.
  - apply Forall_insert; [done|]. exact (Forall_lookup_1 _ _ _ _ H3 Hp).
  - apply Forall_app. split; [done|]. apply allowed_exit_events.
  - apply kills_follow_waits_app; [done|]. apply kills_exit_events.
Qed.

Lemma Inv2_confirm (pid : nat) (p : QProcess) (w : World) :
  procs w !! pid = Some p → Inv2 w → Inv2 (confirm_world pid p w).
Proof.
  intros Hp [H1 H2 H3 H4 H5 H6]. split; simpl; try done.
  - by rewrite imap_set_phase.
  - apply Forall_insert; [done|]. exact (Forall_lookup_1 _ _ _ _ H3 Hp).
Qed.

Lemma Inv2_refuse (pid : nat) (p : QProcess) (w : World) :
  procs w !! pid = Some p → Inv2 w → Inv2 (refuse_world pid p w).
Proof.
  intros Hp [H1 H2 H3 H4 H5 H6]. split; simpl; try done.
  - rewrite launch_events_app, H2, imap_set_phase by done.
    unfold refuse_events.
    destruct (errorOccurred_connected p); simpl; apply app_nil_r.
  - apply Forall_insert; [done|]. exact (Forall_lookup_1 _ _ _ _ H3 Hp).
  - apply Forall_app. split; [done|]. unfold refuse_events.
    destruct (errorOccurred_connected p); by repeat constructor.
  - apply kills_follow_waits_app; [done|].
    intros x. unfold refuse_events.
    by destruct (errorOccurred_connected p).
Qed.

Lemma Inv2_stored (kelvin : Z) (w : World) : Inv2 w → Inv2 (stored kelvin w).
Proof.
  intros [H1 H2 H3 H4 H5 H6]. split; simpl; try done.
  - unfold DEFAULT_TEMP, QSettings_value. by rewrite lookup_insert_eq.
  - rewrite launch_events_app. simpl. by rewrite app_nil_r.
  - apply Forall_app. split; [done|]. constructor; [|done].
    split; [done|]. rewrite max_min_is_clamp. apply clamp_in_range.
  - by apply kills_follow_waits_app.
Qed.

Lemma Inv2_scheduled (w : World) : Inv2 w → Inv2 (scheduled w).
Proof.
  intros [H1 H2 H3 H4 H5 H6]. split; simpl; try done.
  - rewrite launch_events_app. simpl. by rewrite app_nil_r.
  - apply Forall_app. split; [done|]. by repeat constructor.
  - apply Forall_app. split; [done|]. by repeat constructor.
  - by apply kills_follow_waits_app.
Qed.

Lemma effect_Inv2 (w w' : World) : Inv2 w → effect w w' → Inv2 w'.
Proof.
  intros HI [|o Hr|pid p o Hh Hp Hph|k Hr|k pid p o Hh Hp Hph|d rest Ht
            |pid p crashed Hp Hph|pid p Hp Hph|pid p Hp Hph].
  - done.
  - by apply Inv2_launch.
  - by apply Inv2_stop_world.
  - by apply Inv2_stored.
  - apply Inv2_scheduled, Inv2_stop_world; [done|]. by apply Inv2_stored.
  - destruct HI as [H1 H2 H3 H4 H5 H6]. split; simpl; try done.
    rewrite Ht in H5. by apply Forall_cons in H5 as [_ H5].
  - by apply Inv2_exit.
  - by apply Inv2_confirm.
  - by apply Inv2_refuse.
Qed.

Theorem reachable_Inv2 (w : World) : reachable w → Inv2 w.
Proof.
  apply reachable_effect_ind; [apply Inv2_init|].
  intros w1 w2. apply effect_Inv2.
Qed.

Lemma busy_world_run : run busy_run (init ∅) = Some busy_world.
Proof. vm_compute. reflexivity. Qed.

Lemma busy_world_reachable : reachable busy_world.
Proof.
  apply (run_reachable busy_run (init ∅)); [apply reachable_init|].
  apply busy_world_run.
Qed.

Lemma busy_world_prompt : reachable_prompt busy_world.
Proof.
  apply (run_reachable_prompt busy_run (init ∅));
    [apply reachable_prompt_init|done|].
  apply busy_world_run.
Qed.

(** ** X1: the stored temperature is the controller's *)

(** X1: in every reachable world the store holds the controller's
    temperature under "temperature" (or holds nothing while the
    temperature is still the default 4000), so that a controller
    initialised from the store as it is now has the same temperature. *)
Theorem X1_temperature_survives_restart (w : World) :
  reachable w → temperature_survives_restart w.
Proof. intros HI%reachable_Inv2. apply (inv_persisted w HI). Qed.

Lemma X1_temperature_survives_restart_witness :
  temperature_survives_restart busy_world.
Proof.
  apply (X1_temperature_survives_restart busy_world), busy_world_reachable.
Defined.

(** ** X2: the range of the temperature, given a store within the range *)

Lemma DEFAULT_TEMP_in_range (store : gmap string Z) :
  store_in_range store → (2000 ≤ DEFAULT_TEMP store ≤ 6000)%Z.
Proof.
  intros Hs. unfold DEFAULT_TEMP, QSettings_value.
  destruct (store !! "temperature") as [t|] eqn:Ht; simpl; [by apply Hs|lia].
Qed.

(** X2: when the store the application starts from holds no temperature,
    or one within [2000, 6000], then in every world of every run the
    controller's temperature is within [2000, 6000] and so is the
    temperature in the store. *)
Theorem X2_temperature_stays_in_range (store : gmap string Z)
    (acts : list Action) (w : World) :
  store_in_range store → run acts (init store) = Some w →
  (2000 ≤ temperature w ≤ 6000)%Z ∧ store_in_range (SETTINGS w).
Proof.
  intros Hs Hrun.
  assert (2000 ≤ temperature w ≤ 6000)%Z as Ht.
  { eapply temperature_in_range; [|done]. by apply DEFAULT_TEMP_in_range. }
  split; [done|]. intros t Hl.
  assert (Inv2 w) as HI.
  { apply reachable_Inv2. eapply run_reachable; [apply reachable_init|done]. }
  pose proof (inv_persisted w HI) as Hp.
  unfold DEFAULT_TEMP, QSettings_value in Hp. rewrite Hl in Hp. simpl in Hp.
  by rewrite Hp.
Qed.

Lemma X2_temperature_stays_in_range_witness :
  (2000 ≤ temperature busy_world ≤ 6000)%Z ∧
  store_in_range (SETTINGS busy_world).
Proof.
  apply (X2_temperature_stays_in_range ∅ busy_run busy_world).
  - intros t Ht. vm_compute in Ht. discriminate.
  - vm_compute. reflexivity.
Defined.

(** ** X3: which daemon is running *)

Lemma daemon_is_current_effect (w w' : World) :
  Inv w → daemon_is_current w → effect w w' → daemon_is_current w'.
Proof.
  intros HI HP [|o Hr|pid0 p0 o Hh0 Hp0 Hph0|k Hr|k pid0 p0 o Hh0 Hp0 Hph0
               |d rest Ht|pid0 p0 crashed Hp0 Hph0|pid0 p0 Hp0 Hph0
               |pid0 p0 Hp0 Hph0];
    [..|by destruct (inv_answered w HI pid0 p0)
       |by destruct (inv_answered w HI pid0 p0)];
    intros pid p Hh Hp Hst; unfold temperature in *; simpl in *.
  - by apply HP.
  - injection Hh as <-. rewrite lookup_snoc_last in Hp.
    injection Hp as <-. by left.
  - rewrite Hh0 in Hh. injection Hh as <-.
    pose proof (lookup_lt_Some _ _ _ Hp0) as Hlt.
    destruct o as [crashed|].
    + rewrite list_lookup_insert_eq in Hp by done. by simplify_eq.
    + right. unfold stop_events. rewrite !elem_of_app, !elem_of_cons. auto 10.
  - assert (is_running w = true); [|congruence].
    apply is_running_true. exists pid, p. by rewrite <- state_Running.
  - rewrite Hh0 in Hh. injection Hh as <-.
    pose proof (lookup_lt_Some _ _ _ Hp0) as Hlt.
    destruct o as [crashed|].
    + rewrite list_lookup_insert_eq in Hp by done. by simplify_eq.
    + right. unfold stop_events. rewrite !elem_of_app, !elem_of_cons. auto 10.
  - by apply HP.
  - pose proof (inv_alive w HI pid0 p0 Hp0 Hph0) as Hcur.
    rewrite Hcur in Hh. injection Hh as <-.
    pose proof (lookup_lt_Some _ _ _ Hp0) as Hlt.
    rewrite list_lookup_insert_eq in Hp by done. by simplify_eq.
Qed.

(** X3: as long as no wait for a launch has run out, the daemon that is
    running was launched with [-t] and the controller's current
    temperature, unless the controller has already sent it a kill (it is
    then on its way out and a restart is scheduled or has been tried). *)
Theorem X3_running_daemon_is_current (w : World) :
  reachable_prompt w → daemon_is_current w.
Proof.
  revert w. apply reachable_prompt_effect_ind.
  - intros store pid p Hh. done.
  - intros w w'. apply daemon_is_current_effect.
Qed.

Lemma X3_running_daemon_is_current_witness : daemon_is_current busy_world.
Proof.
  apply (X3_running_daemon_is_current busy_world), busy_world_prompt.
Defined.

(** ** X4: process objects and launches *)

(** X4: in every reachable world the launches recorded in the trace are,
    in order, the process objects the controller holds: object [i] is the
    one launch number [i] created, no object is ever released, and every
    launch is of "hyprsunset" with the two arguments [-t] and an integer
    in decimal. *)
Theorem X4_one_object_per_launch (w : World) :
  reachable w → one_object_per_launch w.
Proof.
  intros HI%reachable_Inv2. split; [apply (inv_launches w HI)|].
  apply (inv_cmdline w HI).
Qed.

Lemma X4_one_object_per_launch_witness : one_object_per_launch busy_world.
Proof.
  apply (X4_one_object_per_launch busy_world), busy_world_reachable.
Defined.

(** ** X5: the requests the controller makes *)

(** X5: in every reachable world, every write to the store is to the key
    "temperature" with a value within [2000, 6000], every launch is of
    hyprsunset with [-t] and an integer, every wait for a start or an
    exit is of 1000 ms, every single-shot timer is of 50 ms, and there is
    no request for termination. *)
Theorem X5_only_known_requests (w : World) :
  reachable w → only_known_requests w.
Proof.
  intros HI%reachable_Inv2. split; [apply (inv_allowed w HI)|].
  apply (inv_timers w HI).
Qed.

Lemma X5_only_known_requests_witness : only_known_requests busy_world.
Proof.
  apply (X5_only_known_requests busy_world), busy_world_reachable.
Defined.

(** ** X6: kills *)

Lemma kills_follow_waits_split (prev : option Event) (tr pre post : list Event)
    (pid : nat) :
  kills_follow_waits prev tr = true → tr = pre ++ Kill pid :: post →
  (pre = [] ∧ prev = Some (WaitForFinished pid 1000)) ∨
  ∃ pre', pre = pre' ++ [WaitForFinished pid 1000].
Proof.
  revert prev tr. induction pre as [|e pre IH]; intros prev tr Hk ->;
    simpl in Hk; apply andb_true_iff in Hk as [He Hk].
  - left. split; [done|]. unfold kill_allowed in He.
    destruct prev as [[]|]; try done.
    apply andb_true_iff in He as [->%bool_decide_eq_true ->%bool_decide_eq_true].
    done.
  - right. destruct (IH (Some e) _ Hk eq_refl) as [[-> [= ->]]|[pre' ->]].
    + by exists [].
    + by exists (e :: pre').
Qed.

(** X6: in every reachable world, every kill in the trace comes right
    after a 1000 ms wait for the exit of the same process: the controller
    kills only a process it has just waited for in vain. *)
Theorem X6_kill_only_after_wait (w : World) :
  reachable w → kill_only_after_wait w.
Proof.
  intros HI%reachable_Inv2 pre pid post Htr.
  destruct (kills_follow_waits_split None (trace w) pre post pid)
    as [[_ ?]|?]; [apply (inv_kills w HI)|done..].
Qed.

Lemma X6_kill_only_after_wait_witness : kill_only_after_wait busy_world.
Proof.
  apply (X6_kill_only_after_wait busy_world), busy_world_reachable.
Defined.

(** ** X7: the exit of a process *)

(** X7: as long as no wait for a launch has run out, the process whose
    exit the event loop reports is the one the handle names; the
    controller was running, is not running after the report, and the
    report emits exactly one state_changed, with false. *)
Theorem X7_exit_stops_controller (pid : nat) (crashed : bool) (w w' : World) :
  reachable_prompt w → step (Process_exits pid crashed) w = Some w' →
  exit_stops_controller pid w w'.
Proof.
  intros HI%reachable_prompt_Inv Hs. simpl in Hs.
  destruct (procs w !! pid) as [p|] eqn:Hp; [|done]. simpl in Hs.
  destruct (phase p) eqn:Hph; try done. injection Hs as <-.
  pose proof (inv_alive w HI pid p Hp Hph) as Hh.
  pose proof (lookup_lt_Some _ _ _ Hp) as Hlt.
  destruct (inv_connected w HI pid p Hp) as [Hfc _].
  unfold exec. rewrite (child_exited_eq pid crashed w p) by done. simpl.
  split; [done|]. split; [apply is_running_true; eauto|]. split.
  - unfold is_running. simpl. rewrite Hh.
    by rewrite list_lookup_insert_eq by done.
  - eexists. split; [done|]. by apply emissions_exit_events.
Qed.

Lemma X7_exit_stops_controller_witness :
  exit_stops_controller 0 running_world
    (exec (child_exited 0 true) running_world).
Proof.
  apply (X7_exit_stops_controller 0 true running_world).
  - apply running_world_prompt.
  - vm_compute. reflexivity.
Defined.

(** ** X8: stop after stop *)

Lemma stop_Finished_not_running (crashed : bool) (w : World) :
  is_running (exec (stop (Finished crashed)) w) = false.
Proof.
  unfold exec. destruct (is_running w) eqn:Hr.
  - apply is_running_true in Hr as (pid & p & Hh & Hp & Hph).
    pose proof (lookup_lt_Some _ _ _ Hp) as Hlt.
    rewrite (stop_running _ w pid p) by done.
    unfold is_running. simpl. rewrite Hh.
    by rewrite list_lookup_insert_eq by done.
  - by rewrite stop_not_running.
Qed.

(** X8: whatever the world, after a [stop] during whose wait the child
    exited (or a stop that found nothing running) the controller is not
    running, and a second [stop] changes nothing: it does not wait, does
    not kill and emits nothing. *)
Theorem X8_second_stop_is_noop (o : FinishOutcome) (crashed : bool) (w : World) :
  is_running (exec (stop (Finished crashed)) w) = false ∧
  second_stop_is_noop o crashed w.
Proof.
  split; [apply stop_Finished_not_running|].
  apply stop_not_running, stop_Finished_not_running.
Qed.

(** ** X9: who writes the temperature *)



(** ** X10: what a step announces *)

Lemma emissions_stop_events (p : QProcess) (pid : nat) (o : FinishOutcome) :
  finished_connected p = true →
  emissions (stop_events p pid o)
  = match o with Finished _ => [false] | FinishTimedOut => [] end.
Proof.
  intros Hc. unfold stop_events. rewrite emissions_app. simpl.
  destruct o; [by apply emissions_exit_events|done].
Qed.

Lemma stop_world_running (pid : nat) (p : QProcess) (o : FinishOutcome) (w : World) :
  process w = Some pid → procs w !! pid = Some p → phase p = Alive →
  is_running (stop_world pid p o w)
  = match o with Finished _ => false | FinishTimedOut => true end.
Proof.
  intros Hh Hp Hph. pose proof (lookup_lt_Some _ _ _ Hp) as Hlt.
  unfold is_running. simpl. rewrite Hh. destruct o.
  - by rewrite list_lookup_insert_eq by done.
  - rewrite Hp. apply bool_decide_eq_true. by apply state_Running.
Qed.

Lemma effect_announced (w w' : World) : Inv w → effect w w' → announced w w'.
Proof.
  intros HI [|o Hr|pid0 p0 o Hh0 Hp0 Hph0|k Hr|k pid0 p0 o Hh0 Hp0 Hph0
            |d rest Ht|pid0 p0 crashed Hp0 Hph0|pid0 p0 Hp0 Hph0
            |pid0 p0 Hp0 Hph0];
    [..|by destruct (inv_answered w HI pid0 p0)
       |by destruct (inv_answered w HI pid0 p0)].
  - exists []. split; [by rewrite app_nil_r|]. left. eauto.
  - eexists. split; [done|]. rewrite emissions_start_events.
    assert (is_running (launch_world o w) = launch_confirmed o) as Hr'.
    { unfold is_running. simpl. rewrite lookup_snoc_last. by destruct o. }
    rewrite Hr'. destruct (launch_confirmed o) eqn:Ho.
    + right. split; [done|]. simpl. intros pid p [= <-].
      rewrite lookup_snoc_last. by intros [= <-].
    + left. split; [done|]. split; [done|]. simpl. intros pid p [= <-].
      rewrite lookup_snoc_last. intros [= <-]. by destruct o.
  - destruct (inv_connected w HI pid0 p0 Hp0) as [Hfc _].
    pose proof (lookup_lt_Some _ _ _ Hp0) as Hlt.
    eexists. split; [done|]. rewrite emissions_stop_events by done.
    rewrite (stop_world_running pid0 p0 o w) by done.
    destruct o as [crashed|].
    + right. split; [done|]. simpl. intros pid p Hh. rewrite Hh0 in Hh.
      injection Hh as <-. rewrite list_lookup_insert_eq by done.
      by intros [= <-].
    + left. split; [done|]. split; [|by eauto].
      symmetry. apply is_running_true. eauto.
  - exists [SetValue "temperature" (Z.max MIN_TEMP (Z.min MAX_TEMP k))].
    split; [done|]. left. eauto.
  - destruct (inv_connected w HI pid0 p0 Hp0) as [Hfc _].
    pose proof (lookup_lt_Some _ _ _ Hp0) as Hlt.
    exists ([SetValue "temperature" (Z.max MIN_TEMP (Z.min MAX_TEMP k))] ++
            stop_events p0 pid0 o ++ [SingleShot 50]).
    split; [simpl; by rewrite <- !app_assoc|].
    rewrite !emissions_app, emissions_stop_events by done. simpl.
    rewrite app_nil_r.
    assert (is_running (scheduled (stop_world pid0 p0 o (stored k w)))
            = match o with Finished _ => false | FinishTimedOut => true end)
      as ->.
    { rewrite <- (stop_world_running pid0 p0 o (stored k w)) by done.
      by apply is_running_frame. }
    destruct o as [crashed|].
    + right. split; [done|]. simpl. intros pid p Hh. rewrite Hh0 in Hh.
      injection Hh as <-. rewrite list_lookup_insert_eq by done.
      by intros [= <-].
    + left. split; [done|]. split; [|by eauto].
      symmetry. apply is_running_true. eauto.
  - exists []. split; [simpl; by rewrite app_nil_r|]. left. eauto.
  - destruct (inv_connected w HI pid0 p0 Hp0) as [Hfc _].
    pose proof (lookup_lt_Some _ _ _ Hp0) as Hlt.
    pose proof (inv_alive w HI pid0 p0 Hp0 Hph0) as Hcur.
    eexists. split; [done|]. rewrite emissions_exit_events by done.
    assert (is_running (exit_world pid0 p0 crashed w) = false) as ->.
    { unfold is_running. simpl. rewrite Hcur.
      by rewrite list_lookup_insert_eq by done. }
    right. split; [done|]. simpl. intros pid p Hh. rewrite Hcur in Hh.
    injection Hh as <-. rewrite list_lookup_insert_eq by done.
    by intros [= <-].
Qed.

Lemma step_announced (a : Action) (w w' : World) :
  Inv w → step a w = Some w' → announced w w'.
Proof.
  intros HI Hs.
  destruct (step_effects a w w' Hs) as (w1 & [->|(d & rest & Ht & ->)] & He);
    [by apply effect_announced|].
  apply effect_announced in He.
  - destruct He as (evs & Htr & Hcase). exists evs. split; [done|].
    by destruct Hcase as [(? & ? & ?)|(? & ?)]; [left|right].
  - by apply Inv_timer.
Qed.

(** X10: as long as no wait for a launch has run out before it, a step
    emits state_changed at most once.  When it emits nothing,
    [is_running] is what it was before the step and a running daemon is
    the same process object; when it emits, the value emitted is what
    [is_running] answers after the step, and a daemon running after the
    step was launched with the temperature the controller has then. *)
Theorem X10_step_announces_is_running (a : Action) (w w' : World) :
  reachable_prompt w → step a w = Some w' → announced w w'.
Proof. intros HI%reachable_prompt_Inv. by apply step_announced. Qed.

Lemma X10_step_announces_is_running_witness :
  announced running_world (exec (stop (Finished true)) running_world).
Proof.
  apply (X10_step_announces_is_running (Call_stop (Finished true))
           running_world).
  - apply running_world_prompt.
  - reflexivity.
Defined.

(** ** The tray *)

Lemma run_snoc (acts : list Action) (a : Action) (w0 w w' : World) :
  run acts w0 = Some w → step a w = Some w' → run (acts ++ [a]) w0 = Some w'.
Proof.
  revert w0. induction acts as [|b acts IH]; intros w0; simpl.
  - intros [= ->] ->. done.
  - destruct (step b w0) as [w1|]; [|done]. apply IH.
Qed.

Lemma QSlider_bound_in_range (v : Z) : (2000 ≤ QSlider_bound v ≤ 6000)%Z.
Proof. unfold QSlider_bound. rewrite max_min_is_clamp. apply clamp_in_range. Qed.

Lemma QSlider_bound_id (v : Z) : (2000 ≤ v ≤ 6000)%Z → QSlider_bound v = v.
Proof. unfold QSlider_bound, MIN_TEMP, MAX_TEMP. lia. Qed.

Section TrayProofs.

Variable hasThemeIcon : string → bool.

Lemma deliver_controller (bs : list bool) (a : App) :
  controller (foldl (λ a' running, _on_controller_state_changed hasThemeIcon running a') a bs) = controller a.
Proof.
  revert a. induction bs as [|b bs IH]; intros a; simpl; [done|].
  by rewrite IH.
Qed.

Lemma call_controller (m : World → World) (a : App) :
  controller (call hasThemeIcon m a) = m (controller a).
Proof. unfold call. by rewrite deliver_controller. Qed.

Lemma call_emissions (m : World → World) (a : App) (evs : list Event) :
  trace (m (controller a)) = trace (controller a) ++ evs →
  call hasThemeIcon m a
  = foldl (λ a' running, _on_controller_state_changed hasThemeIcon running a')
      {| controller := m (controller a); tray := tray a; FLAGS := FLAGS a |}
      (emissions evs).
Proof. intros Ht. unfold call. by rewrite Ht, drop_app_length. Qed.

Lemma mirrors_slot (a : App) :
  mirrors hasThemeIcon (_on_controller_state_changed hasThemeIcon
                        (is_running (controller a)) a).
Proof.
  unfold mirrors. simpl. repeat split. by rewrite lookup_insert_eq.
Qed.

Lemma deliver_temp_dialog (bs : list bool) (a : App) :
  temp_dialog (tray (foldl (λ a' running, _on_controller_state_changed hasThemeIcon running a') a bs))
  = temp_dialog (tray a).
Proof.
  revert a. induction bs as [|b bs IH]; intros a; simpl; [done|].
  by rewrite IH.
Qed.

Lemma call_temp_dialog (m : World → World) (a : App) :
  temp_dialog (tray (call hasThemeIcon m a)) = temp_dialog (tray a).
Proof. unfold call. by rewrite deliver_temp_dialog. Qed.

(** *** What holds of every application *)

Lemma AppInv_call (store : gmap string Z) (a : App) (cact : Action) (w' : World) :
  AppInv store a → step cact (controller a) = Some w' →
  AppInv store (call hasThemeIcon (λ _, w') a).
Proof.
  intros [(acts & Hrun) Hd] Hs. split.
  - exists (acts ++ [cact]). rewrite call_controller. by eapply run_snoc.
  - intros Hr d. rewrite call_temp_dialog. by apply Hd.
Qed.

Lemma AppInv_set_dialog (store : gmap string Z) (a : App)
    (d : option TempDialog) :
  AppInv store a →
  (store_in_range store →
   ∀ d', d = Some d' →
         slider d' = _pending d' ∧ label d' = pretty (_pending d') +:+ "K" ∧
         (2000 ≤ _pending d' ≤ 6000)%Z) →
  AppInv store (set_dialog d a).
Proof.
  intros [Hrun Hd] Hd'. by split.
Qed.

Lemma AppInv_init (store : gmap string Z) (o : StartOutcome)
    (flags : gmap string bool) :
  AppInv store (HyprsunsetTray_init hasThemeIcon o (init store) flags).
Proof.
  unfold HyprsunsetTray_init. simpl. rewrite lookup_insert_eq. simpl.
  split; simpl.
  - by exists [].
  - intros _ d Hd. done.
Qed.

Lemma dialog_of_AppInv (store : gmap string Z) (a : App) :
  AppInv store a → store_in_range store →
  (2000 ≤ temperature (controller a) ≤ 6000)%Z.
Proof.
  intros [(acts & Hrun) _] Hs.
  eapply temperature_in_range; [|done]. by apply DEFAULT_TEMP_in_range.
Qed.

Lemma AppInv_step (store : gmap string Z) (act : AppAction) (a a' : App) :
  AppInv store a → app_step hasThemeIcon act a = Some a' →
  AppInv store a'.
Proof.
  intros HA Hs.
  assert (∀ os fo, AppInv store (_toggle hasThemeIcon os fo a))
    as Htoggle.
  { intros os fo. unfold _toggle. destruct (is_running (controller a)).
    - exact (AppInv_call store a (Call_stop fo) _ HA eq_refl).
    - exact (AppInv_call store a (Call_start os) _ HA eq_refl). }
  destruct act as [os fo|reason os fo| |v|fo|cact]; cbn [app_step] in Hs.
  - injection Hs as <-. apply Htoggle.
  - injection Hs as <-. destruct reason; simpl; first [done|apply Htoggle].
  - destruct (temp_action (tray a)); [|done]. injection Hs as <-.
    apply AppInv_set_dialog; [done|]. intros Hr d' [= <-]. simpl.
    destruct (temp_dialog (tray a)) as [d|] eqn:Hd.
    + by apply (ai_dialog _ _ HA Hr d).
    + pose proof (dialog_of_AppInv store a HA Hr) as Ht. simpl.
      split; [by apply QSlider_bound_id|done].
  - destruct (temp_dialog (tray a)) as [d|] eqn:Hd; [|done].
    destruct (shown d); [|done]. injection Hs as <-.
    apply AppInv_set_dialog; [done|]. intros Hr d' [= <-].
    destruct (ai_dialog _ _ HA Hr d Hd) as (H1 & H2 & H3).
    unfold slider_moved. case_bool_decide; [done|]. simpl.
    split; [done|]. split; [done|]. apply QSlider_bound_in_range.
  - destruct (temp_dialog (tray a)) as [d|] eqn:Hd; [|done].
    destruct (shown d); [|done]. injection Hs as <-.
    unfold closeEvent. apply AppInv_set_dialog.
    + exact (AppInv_call store a (Call_set_temperature (_pending d) fo) _
               HA eq_refl).
    + intros Hr d' [= <-]. by apply (ai_dialog _ _ HA Hr d).
  - destruct cact as [| | |o|pid crashed|pid|pid]; try done;
      (destruct (step _ (controller a)) as [w'|] eqn:Hst; [|done]);
      injection Hs as <-; by eapply AppInv_call.
Qed.

Lemma app_reachable_AppInv (store : gmap string Z) (a : App) :
  app_reachable hasThemeIcon store a → AppInv store a.
Proof.
  induction 1 as [o flags|a act a' _ IH Hs]; [apply AppInv_init|].
  by eapply AppInv_step.
Qed.

Lemma app_run_reachable (store : gmap string Z) (acts : list AppAction)
    (a a' : App) :
  app_reachable hasThemeIcon store a →
  app_run hasThemeIcon acts a = Some a' →
  app_reachable hasThemeIcon store a'.
Proof.
  revert a. induction acts as [|act acts IH]; intros a Ha; simpl.
  - by intros [= <-].
  - destruct (app_step hasThemeIcon act a) as [a1|] eqn:Hs; [|done].
    apply IH. by eapply app_reachable_step.
Qed.

(** *** What holds as long as no wait for a launch has run out *)

Lemma AppPrompt_call (a : App) (cact : Action) (w' : World) :
  AppPrompt hasThemeIcon a → prompt cact = true →
  step cact (controller a) = Some w' →
  AppPrompt hasThemeIcon (call hasThemeIcon (λ _, w') a).
Proof.
  intros [Hp Hm Ht] Ha Hs.
  pose proof (reachable_prompt_Inv _ Hp) as HI.
  pose proof (reachable_prompt_step _ _ _ Hp Ha Hs) as Hp'.
  destruct (step_announced cact _ _ HI Hs) as (evs & Htr & Hcase).
  rewrite (call_emissions (λ _, w') a evs) by done.
  destruct Hcase as [(-> & Hr & Hsame)|(-> & Hfresh)]; simpl.
  - split; simpl.
    + done.
    + unfold mirrors in *. simpl. by rewrite Hr.
    + intros pid p Hh Hp0 Hst%state_Running. simpl in *.
      destruct (Hsame pid p Hh Hp0 Hst) as [Hh0 Hp1].
      apply (Ht pid p Hh0 Hp1). by apply state_Running.
  - split; simpl.
    + done.
    + apply (mirrors_slot {| controller := w'; tray := tray a;
                             FLAGS := FLAGS a |}).
    + intros pid p Hh Hp0 Hst%state_Running. simpl in *.
      exists (_temperature w'). split; [by apply (Hfresh pid p)|done].
Qed.

Lemma AppPrompt_set_dialog (a : App) (d : option TempDialog) :
  AppPrompt hasThemeIcon a → AppPrompt hasThemeIcon (set_dialog d a).
Proof. intros [Hp Hm Ht]. by split. Qed.

Lemma AppPrompt_init (store : gmap string Z) (o : StartOutcome)
    (flags : gmap string bool) :
  AppPrompt hasThemeIcon
    (HyprsunsetTray_init hasThemeIcon o (init store) flags).
Proof.
  unfold HyprsunsetTray_init. simpl. rewrite lookup_insert_eq. simpl.
  split; simpl.
  - apply reachable_prompt_init.
  - unfold mirrors. simpl. repeat split. by rewrite lookup_insert_eq.
  - intros pid p Hh. done.
Qed.

Lemma AppPrompt_step (act : AppAction) (a a' : App) :
  AppPrompt hasThemeIcon a → app_prompt act = true →
  app_step hasThemeIcon act a = Some a' →
  AppPrompt hasThemeIcon a'.
Proof.
  intros HA Ha Hs.
  assert (∀ os fo, prompt (Call_start os) = true →
                   AppPrompt hasThemeIcon (_toggle hasThemeIcon os fo a))
    as Htoggle.
  { intros os fo Hos. unfold _toggle. destruct (is_running (controller a)).
    - exact (AppPrompt_call a (Call_stop fo) _ HA eq_refl eq_refl).
    - exact (AppPrompt_call a (Call_start os) _ HA Hos eq_refl). }
  destruct act as [os fo|reason os fo| |v|fo|cact];
    cbn [app_step] in Hs; cbn [app_prompt] in Ha.
  - injection Hs as <-. by apply Htoggle.
  - injection Hs as <-. destruct reason; simpl; first [done|by apply Htoggle].
  - destruct (temp_action (tray a)); [|done]. injection Hs as <-.
    by apply AppPrompt_set_dialog.
  - destruct (temp_dialog (tray a)) as [d|] eqn:Hd; [|done].
    destruct (shown d); [|done]. injection Hs as <-.
    by apply AppPrompt_set_dialog.
  - destruct (temp_dialog (tray a)) as [d|] eqn:Hd; [|done].
    destruct (shown d); [|done]. injection Hs as <-.
    unfold closeEvent. apply AppPrompt_set_dialog.
    exact (AppPrompt_call a (Call_set_temperature (_pending d) fo) _
             HA eq_refl eq_refl).
  - destruct cact as [| | |o|pid crashed|pid|pid]; try done;
      (destruct (step _ (controller a)) as [w'|] eqn:Hst; [|done]);
      injection Hs as <-; by eapply AppPrompt_call.
Qed.

Lemma app_reachable_prompt_AppPrompt (store : gmap string Z) (a : App) :
  app_reachable_prompt hasThemeIcon store a → AppPrompt hasThemeIcon a.
Proof.
  induction 1 as [o flags|a act a' _ IH Ha Hs]; [apply AppPrompt_init|].
  by eapply AppPrompt_step.
Qed.

Lemma app_run_reachable_prompt (store : gmap string Z)
    (acts : list AppAction) (a a' : App) :
  app_reachable_prompt hasThemeIcon store a →
  forallb app_prompt acts = true →
  app_run hasThemeIcon acts a = Some a' →
  app_reachable_prompt hasThemeIcon store a'.
Proof.
  revert a. induction acts as [|act acts IH]; intros a Ha; simpl.
  - by intros _ [= <-].
  - intros [Hact Hacts]%andb_true_iff.
    destruct (app_step hasThemeIcon act a) as [a1|] eqn:Hs; [|done].
    apply IH; [|done]. by eapply app_reachable_prompt_step.
Qed.

(** ** X11: constructing the tray *)

(** X11: whatever the controller's world, the outcome of a launch and
    the boolean keys of the store, [HyprsunsetTray.__init__] leaves the
    controller exactly as it found it and ends with the flag "enabled"
    set to whether the controller is running.  The flag found in the
    store has no effect: the slot overwrites it before it is read, and
    the [start] that follows a true flag finds the controller running. *)
Theorem X11_tray_init_never_launches (o : StartOutcome) (w : World)
    (flags : gmap string bool) :
  init_leaves_controller hasThemeIcon o w flags.
Proof.
  unfold init_leaves_controller, HyprsunsetTray_init. simpl.
  rewrite lookup_insert_eq. simpl.
  destruct (is_running w) eqn:Hr; simpl; [|by rewrite lookup_insert_eq].
  unfold call, exec. simpl. rewrite start_running by done. simpl.
  rewrite drop_all. simpl. by rewrite lookup_insert_eq.
Qed.

(** ** X12: the tray shows the state of the controller *)

(** X12: in every application reached from [main]'s two constructions by
    clicks on the icon and the menu, moves of the slider, closings of the
    dialog, timers and process exits, as long as no wait for a launch has
    run out, the text of the toggle action, the enabling of the
    temperature action, the icon and the stored flag "enabled" are those
    of the value [is_running] has. *)
Theorem X12_tray_mirrors_controller (store : gmap string Z) (a : App) :
  app_reachable_prompt hasThemeIcon store a → mirrors hasThemeIcon a.
Proof. intros HA%app_reachable_prompt_AppPrompt. apply (ap_mirrors _ _ HA). Qed.

(** ** X13: a click on the toggle *)

(** X13: after [_toggle], a controller that was running is not running
    if the daemon exited within stop's wait, and still answers running if
    the wait ran out (the kill is on its way); a controller that was not
    running is running exactly when the launch was confirmed. *)
Theorem X13_toggle_outcome (os : StartOutcome) (fo : FinishOutcome) (a : App) :
  toggle_outcome hasThemeIcon os fo a.
Proof.
  unfold toggle_outcome, _toggle.
  destruct (is_running (controller a)) eqn:Hr; rewrite call_controller.
  - destruct fo as [crashed|]; [apply stop_Finished_not_running|].
    apply is_running_true in Hr as (pid & p & Hh & Hp & Hph).
    unfold exec. rewrite (stop_running _ _ pid p) by done.
    apply is_running_true. exists pid, p. eauto.
  - unfold exec. rewrite start_not_running by done.
    unfold is_running. simpl. rewrite lookup_snoc_last. by destruct os.
Qed.

(** ** X14: the dialog *)

(** X14: when the store the application started from holds no
    temperature or one within the range, the dialog, once created, always
    has one value in its slider and in its pending temperature, within
    [2000, 6000], and its label is that value followed by K. *)
Theorem X14_dialog_consistent (store : gmap string Z) (a : App) :
  app_reachable hasThemeIcon store a → store_in_range store →
  dialog_consistent a.
Proof. intros HA%app_reachable_AppInv. apply (ai_dialog _ _ HA). Qed.

(** X15: under the same condition, closing the dialog leaves in the
    controller and in the store the value the slider shows, which is the
    value on the label. *)
Theorem X15_close_stores_shown (store : gmap string Z) (a : App)
    (d : TempDialog) (fo : FinishOutcome) :
  app_reachable hasThemeIcon store a → store_in_range store →
  temp_dialog (tray a) = Some d →
  close_stores_shown d (closeEvent hasThemeIcon d fo a).
Proof.
  intros HA%app_reachable_AppInv Hs Hd.
  destruct (ai_dialog _ _ HA Hs d Hd) as (H1 & H2 & H3).
  unfold close_stores_shown, closeEvent. simpl. rewrite call_controller.
  destruct (set_temperature_stores (_pending d) fo (controller a))
    as (Ht & Hst & _).
  assert (clamp (_pending d) 2000 6000 = _pending d) as Hc.
  { rewrite <- max_min_is_clamp. by apply QSlider_bound_id. }
  unfold temperature. rewrite Ht, Hst, Hc, H1. done.
Qed.

(** ** X16: the tooltip *)

(** X16: in every application reached as in X12, as long as no wait for
    a launch has run out, while a daemon is running the tooltip reads
    "Hyprsunset: tK" for the temperature [t] that daemon was launched
    with. *)
Theorem X16_tooltip_shows_daemon (store : gmap string Z) (a : App) :
  app_reachable_prompt hasThemeIcon store a → tooltip_shows_daemon a.
Proof. intros HA%app_reachable_prompt_AppPrompt. apply (ap_tooltip _ _ HA). Qed.

End TrayProofs.

Lemma demo_app_run :
  app_run no_theme demo_clicks
    (HyprsunsetTray_init no_theme Started (init ∅) ∅) = Some demo_app.
Proof. vm_compute. reflexivity. Qed.

Lemma demo_app_reachable : app_reachable no_theme ∅ demo_app.
Proof.
  eapply (app_run_reachable no_theme ∅ demo_clicks);
    [apply app_reachable_init|apply demo_app_run].
Qed.

Lemma demo_app_prompt : app_reachable_prompt no_theme ∅ demo_app.
Proof.
  eapply (app_run_reachable_prompt no_theme ∅ demo_clicks);
    [apply app_reachable_prompt_init|done|apply demo_app_run].
Qed.

Lemma store_in_range_empty : store_in_range ∅.
Proof. intros t Ht. by rewrite lookup_empty in Ht. Qed.

Lemma X12_tray_mirrors_controller_witness : mirrors no_theme demo_app.
Proof.
  apply (X12_tray_mirrors_controller no_theme ∅ demo_app), demo_app_prompt.
Defined.

Lemma X14_dialog_consistent_witness : dialog_consistent demo_app.
Proof.
  apply (X14_dialog_consistent no_theme ∅ demo_app).
  - apply demo_app_reachable.
  - apply store_in_range_empty.
Defined.

Lemma X16_tooltip_shows_daemon_witness : tooltip_shows_daemon demo_app.
Proof.
  apply (X16_tooltip_shows_daemon no_theme ∅ demo_app), demo_app_prompt.
Defined.

Lemma X15_close_stores_shown_witness :
  close_stores_shown demo_dialog
    (closeEvent no_theme demo_dialog (Finished false) demo_app).
Proof.
  apply (X15_close_stores_shown no_theme ∅ demo_app).
  - apply demo_app_reachable.
  - apply store_in_range_empty.
  - vm_compute. reflexivity.
Defined.

(** ** X17: a stop while a restart is pending *)

(** X17: [stop] never cancels a single-shot timer.  When a restart is
    pending, a stop (during whose wait the daemon exits, or that finds
    nothing running) leaves the controller not running with the same
    timers, and the next timer that fires with a confirmed launch starts
    the daemon again. *)
Theorem X17_stop_keeps_pending_restart (crashed : bool) (w : World) :
  timers w ≠ [] → stop_keeps_restart crashed w.
Proof.
  intros Hne. unfold stop_keeps_restart.
  destruct (stop_frame (Finished crashed) w) as (_ & _ & _ & Ht & _).
  pose proof (stop_Finished_not_running crashed w) as Hr.
  split; [done|]. split; [done|].
  destruct (timers w) as [|d rest] eqn:Htw; [done|].
  eexists. split; [by apply (step_Timer_fires Started _ d rest)|].
  assert (is_running (exec (set_timers rest)
                        (exec (stop (Finished crashed)) w)) = false) as Hr'.
  { by rewrite (is_running_frame (exec (stop (Finished crashed)) w)). }
  unfold exec at 1. rewrite start_not_running by done.
  unfold is_running. simpl. by rewrite lookup_snoc_last.
Qed.

Lemma X17_stop_keeps_pending_restart_witness :
  stop_keeps_restart false pending_world.
Proof.
  apply (X17_stop_keeps_pending_restart false pending_world).
  vm_compute. discriminate.
Defined.

(** ** X18: one live process while launches are answered in time *)

(** X18: as long as no wait for a launch has run out, a process object
    whose child is running or being launched is the one the handle
    names; so at most one process object is in the Running state, and no
    other is in the Starting state beside it. *)
Theorem X18_single_daemon_while_prompt (w : World) :
  reachable_prompt w → only_handle_is_live w ∧ at_most_one_running w.
Proof.
  intros HI%reachable_prompt_Inv.
  assert (only_handle_is_live w) as Hlive.
  { intros i p Hp Hst. apply (inv_alive w HI i p Hp).
    pose proof (inv_answered w HI i p Hp) as Hna.
    unfold state in Hst. by destruct (phase p). }
  split; [done|].
  assert (∀ i p, procs w !! i = Some p → state p = Running →
                 process w = Some i) as Hcur.
  { intros i p Hp Hs. apply (Hlive i p Hp). by rewrite Hs. }
  split; [done|].
  intros i j p q Hp Hq Hsp Hsq.
  pose proof (Hcur _ _ Hp Hsp). pose proof (Hcur _ _ Hq Hsq). congruence.
Qed.

Lemma X18_single_daemon_while_prompt_witness :
  only_handle_is_live restarted_world ∧ at_most_one_running restarted_world.
Proof.
  apply (X18_single_daemon_while_prompt restarted_world),
    restarted_world_prompt.
Defined.

(** ** X19: two notifications per lifecycle while launches are answered
    in time *)

(** X19: as long as no wait for a launch has run out, a process that ran
    and has exited (by a wait inside stop, after a kill, by a crash or a
    signal from outside) has caused exactly two emissions of
    state_changed, true and then false; a process that is running has
    caused exactly the true one; a launch that failed has caused none.
    The emissions as a whole are true/false pairs, followed by a single
    true while the daemon runs. *)
Theorem X19_paired_notifications_while_prompt (w : World) :
  reachable_prompt w → paired_notifications w.
Proof.
  intros HI%reachable_prompt_Inv. split.
  - intros pid p Hp. by rewrite (inv_notifications w HI pid p Hp).
  - by apply inv_emissions.
Qed.

Lemma X19_paired_notifications_while_prompt_witness :
  paired_notifications restarted_world.
Proof.
  apply (X19_paired_notifications_while_prompt restarted_world),
    restarted_world_prompt.
Defined.

(** ** X20: a launch confirmed after the wait *)

(** X20: when the event loop confirms a launch that [start] had given up
    waiting for, nothing is logged and no state_changed is emitted,
    although the object is now in the Running state; if the handle still
    names it, [is_running] turns from false to true without any
    notification. *)
Theorem X20_late_confirmation_is_silent (pid : nat) (w w' : World) :
  step (Launch_confirmed pid) w = Some w' → silent_confirmation pid w w'.
Proof.
  intros (p & Hp & Hph & ->)%step_Launch_confirmed.
  pose proof (lookup_lt_Some _ _ _ Hp) as Hlt.
  unfold silent_confirmation. simpl. split; [done|]. split.
  - by rewrite list_lookup_insert_eq by done.
  - intros Hh. unfold is_running. simpl. rewrite Hh, Hp.
    rewrite list_lookup_insert_eq by done. unfold state. simpl.
    by rewrite Hph.
Qed.

Lemma X20_late_confirmation_is_silent_witness :
  silent_confirmation 0 waiting_world (exec (child_started 0) waiting_world).
Proof.
  apply (X20_late_confirmation_is_silent 0 waiting_world).
  vm_compute. reflexivity.
Defined.
